(** * dynarr.h: a shallow embedding and its verified properties

    The development follows the single source file [dynarr.h].  A dynarr is
    one heap block: a header [struct dynarr { int capa, elem, offs, size; }]
    immediately followed by the element bytes.  The public handle points at
    the first element byte, so every byte address below is relative to that
    handle.

    - [int] is a 32-bit two's complement integer; its arithmetic is written
      with [Int.add], [Int.sub] and [Int.mul], which wrap.  Signed overflow
      is undefined in C: the theorems carry the range conditions ([fits],
      [can_double], [resize_ok]) under which no operation wraps, and the
      section on sizes beyond [int] runs the code past them.
    - the element area is a byte memory [Z -> byte]; [memmove], [memcpy],
      [memset] and [memcmp] act on it as in <string.h>.  The memory has a
      byte at every address: the block ends where [capa] says it does, and
      a store beyond slot [capa - 1] is a store outside the block.
    - an element value is the list of its [sizeof(T)] bytes, and a comparator
      is a function of the bytes of the two elements it is pointed at.
    - the allocation primitives ([DYNARR_ZALLOC], [DYNARR_REALLOC]) are
      oracles that say whether a request of so many bytes succeeds; a
      successful [realloc] keeps the bytes of the block.
    - [DARR_ASSERT] is as in the checked build: a failed assertion aborts,
      which is the result [None].
    - [dynarrFindBinary] takes the C library's [bsearch] as a parameter;
      [dynarrFree] and [dynarrSortStandard] only hand over to [free] and
      [qsort] and are left out. *)

From Stdlib Require Import ZArith List Lia Bool Permutation.
From Stdlib.Strings Require Import Byte.
Import ListNotations.
Open Scope Z_scope.

(** ** Machine integers *)

Module Int.
Definition INT_MAX : Z := 2147483647.
Definition INT_MIN : Z := -2147483648.
Definition modulus : Z := 4294967296.

(** Two's complement wrap-around of a mathematical integer to [int]. *)
Definition wrap (z : Z) : Z := (z - INT_MIN) mod modulus + INT_MIN.

Definition add (x y : Z) : Z := wrap (x + y).
Definition sub (x y : Z) : Z := wrap (x - y).
Definition mul (x y : Z) : Z := wrap (x * y).

Definition in_range (z : Z) : Prop := INT_MIN <= z <= INT_MAX.

(** [size_t] is taken to be 64 bits wide; an [int] operand is converted. *)
Definition size_modulus : Z := 18446744073709551616.
Definition to_size_t (z : Z) : Z := z mod size_modulus.
Definition size_add (x y : Z) : Z := (x + y) mod size_modulus.
End Int.

(** ** Byte memory and the <string.h> primitives *)

Definition mem : Type := Z -> byte.

(** The [n] bytes stored at address [p]. *)
Definition load (m : mem) (p n : Z) : list byte :=
  map (fun k => m (p + Z.of_nat k)) (seq 0 (Z.to_nat n)).

(** Memory after writing the bytes [bs] at address [p]. *)
Definition store (m : mem) (p : Z) (bs : list byte) : mem :=
  fun q =>
    if (p <=? q) && (q <? p + Z.of_nat (length bs))
    then nth (Z.to_nat (q - p)) bs x00
    else m q.

(** [memmove] copies as if through a temporary buffer. *)
Definition memmove (m : mem) (dst src n : Z) : mem := store m dst (load m src n).

(** [memcpy] is only defined on regions that do not overlap; there it agrees
    with [memmove]. *)
Definition memcpy (m : mem) (dst src n : Z) : mem := store m dst (load m src n).

Definition memset (m : mem) (p : Z) (c : byte) (n : Z) : mem :=
  store m p (repeat c (Z.to_nat n)).

(** [memcmp] on the first bytes of two objects: the sign of the first
    difference, bytes read as [unsigned char]. *)
Fixpoint memcmp_bytes (x y : list byte) : Z :=
  match x, y with
  | a :: x', b :: y' =>
      if Byte.eqb a b then memcmp_bytes x' y'
      else Z.of_N (Byte.to_N a) - Z.of_N (Byte.to_N b)
  | _, _ => 0
  end.

Definition memcmp (x y : list byte) (n : Z) : Z :=
  memcmp_bytes (firstn (Z.to_nat n) x) (firstn (Z.to_nat n) y).

(** ** The container *)

Record dynarr : Type := mkDynarr {
  capa : Z;
  elem : Z;
  offs : Z;
  size : Z;
  data : mem
}.

Definition set_capa (a : dynarr) (c : Z) : dynarr :=
  mkDynarr c (elem a) (offs a) (size a) (data a).
Definition set_offs (a : dynarr) (o : Z) : dynarr :=
  mkDynarr (capa a) (elem a) o (size a) (data a).
Definition set_size (a : dynarr) (s : Z) : dynarr :=
  mkDynarr (capa a) (elem a) (offs a) s (data a).
Definition set_data (a : dynarr) (m : mem) : dynarr :=
  mkDynarr (capa a) (elem a) (offs a) (size a) m.

(** [sizeof(struct dynarr)]: four [int]s. *)
Definition sizeof_dynarr : Z := 16.

(** [DARR_EPTR(A, I)]: byte address of logical element [I], computed in [int]. *)
Definition DARR_EPTR (a : dynarr) (i : Z) : Z :=
  Int.mul (elem a) (Int.add (offs a) i).

(** [&(A)[K]] on the typed handle: byte address of buffer slot [K]
    ([sizeof(T)] is the [elem] the container was created with). *)
Definition slot (a : dynarr) (k : Z) : Z := elem a * k.

(** The value held in buffer slot [k], as its bytes. *)
Definition slot_get (a : dynarr) (k : Z) : list byte :=
  load (data a) (slot a k) (elem a).

(** [(A)[K] = V]. *)
Definition slot_set (a : dynarr) (k : Z) (v : list byte) : dynarr :=
  set_data a (store (data a) (slot a k) v).

(** The bytes of logical element [i], as [DARR_EPTR] addresses them. *)
Definition elt (a : dynarr) (i : Z) : list byte :=
  load (data a) (DARR_EPTR a i) (elem a).

(** The logical sequence: elements [0 .. size-1]. *)
Definition contents (a : dynarr) : list (list byte) :=
  map (fun i => elt a (Z.of_nat i)) (seq 0 (Z.to_nat (size a))).

(** The byte count handed to the allocator: [sizeof(struct dynarr) + n]
    with [n] an [int] expression. *)
Definition request (n : Z) : Z := Int.size_add sizeof_dynarr (Int.to_size_t n).

(** *** dynarrNew
    [darr = DYNARR_ZALLOC(sizeof(struct dynarr) + elem); if (!darr) return NULL;
     darr->capa = 1; darr->elem = elem;]  The block is zeroed, so [offs] and
    [size] are 0. *)
Definition dynarrNew (zalloc : Z -> bool) (e : Z) : option dynarr :=
  if zalloc (request e)
  then Some (mkDynarr 1 e 0 0 (fun _ => x00))
  else None.

(** *** dynarrGrow
    [if (offs+size == capa)
       if (offs >= size) { memcpy(a, DARR_EPTR(a, 0), elem*size); offs = 0; }
       else { ptr = DYNARR_REALLOC(.., sizeof(struct dynarr) + elem*capa*2);
              if (!ptr) return -1;  capa *= 2; }
     return 0;] *)
Definition dynarrGrow (realloc : Z -> bool) (a : dynarr) : Z * dynarr :=
  if Int.add (offs a) (size a) =? capa a then
    if offs a >=? size a then
      let a1 := set_data a
                  (memcpy (data a) 0 (DARR_EPTR a 0) (Int.mul (elem a) (size a))) in
      (0, set_offs a1 0)
    else
      if realloc (request (Int.mul (Int.mul (elem a) (capa a)) 2))
      then (0, set_capa a (Int.mul (capa a) 2))
      else (-1, a)
  else (0, a).

(** *** dynarrResize *)

(** The end of the growing arm:
    [memset(DARR_EPTR(a, size), 0, elem*(s-size)); size = s;] and the final
    [return DARR_SIZE(a);]. *)
Definition resize_fill (a : dynarr) (s : Z) : Z * dynarr :=
  let a1 := set_data a
              (memset (data a) (DARR_EPTR a (size a)) x00
                      (Int.mul (elem a) (Int.sub s (size a)))) in
  let a2 := set_size a1 s in
  (size a2, a2).

(** The offset reset that [dynarrResize] and [dynarrCapacity] both contain:
    [if (offs) { memmove(a, DARR_EPTR(a, 0), elem*size); offs = 0; }]. *)
Definition compact (a : dynarr) : dynarr :=
  if offs a =? 0 then a
  else set_offs
         (set_data a (memmove (data a) 0 (DARR_EPTR a 0) (Int.mul (elem a) (size a))))
         0.

(** [if (s < size) { size = (s < 0) ? 0 : s; if (!size) offs = 0; }
     else if (s > size) {
       if (offs+s > capa) {
         <offset reset>
         if (s > capa) { ptr = DYNARR_REALLOC(.., sizeof(struct dynarr) + elem*s);
                         if (!ptr) return -1;  capa = s; } }
       <zero the new elements, size = s> }
     return size;] *)
Definition dynarrResize (realloc : Z -> bool) (a : dynarr) (s : Z) : Z * dynarr :=
  if s <? size a then
    let a1 := set_size a (if s <? 0 then 0 else s) in
    let a2 := if size a1 =? 0 then set_offs a1 0 else a1 in
    (size a2, a2)
  else if s >? size a then
    if Int.add (offs a) s >? capa a then
      let a1 := compact a in
      if s >? capa a1 then
        if realloc (request (Int.mul (elem a1) s))
        then resize_fill (set_capa a1 s) s
        else (-1, a1)
      else resize_fill a1 s
    else resize_fill a s
  else (size a, a).

(** *** dynarrCapacity
    [if (c < size) c = size;
     <offset reset>
     if (c != capa) { ptr = DYNARR_REALLOC(.., sizeof(struct dynarr) + elem*c);
                      if (!ptr) return -1;  capa = c; }
     return capa;] *)
Definition dynarrCapacity (realloc : Z -> bool) (a : dynarr) (c : Z) : Z * dynarr :=
  let c := if c <? size a then size a else c in
  let a1 := compact a in
  if negb (c =? capa a1) then
    if realloc (request (Int.mul (elem a1) c))
    then let a2 := set_capa a1 c in (capa a2, a2)
    else (-1, a1)
  else (capa a1, a1).

(** *** dynarrFindLinear
    [for (int i = 0; i < size; i++)
       if (!memcmp(k, DARR_EPTR(a, i), elem)) return i;
     return -1;]
    [n] counts the iterations the loop has left; the loop test is kept, and
    [find_loop_fuel] shows that [n = 0] is met only when the test fails. *)
Fixpoint find_loop (a : dynarr) (k : list byte) (n : nat) (i : Z) : Z :=
  match n with
  | O => -1
  | S n' =>
      if i <? size a then
        if memcmp k (elt a i) (elem a) =? 0 then i
        else find_loop a k n' (Int.add i 1)
      else -1
  end.

Definition dynarrFindLinear (a : dynarr) (k : list byte) : Z :=
  find_loop a k (Z.to_nat (size a)) 0.

(** *** dynarrSortInsert
    [for (int j = 1; j < size; j++)
       for (int i = j; (i > 0)&&(comp(DARR_EPTR(a, i-1), DARR_EPTR(a, i)) > 0); i--)
         <exchange elements i-1 and i>] *)

(** The loop body:
    [memcpy(temp, DARR_EPTR(a, i), elem);
     memcpy(DARR_EPTR(a, i), DARR_EPTR(a, i-1), elem);
     memcpy(DARR_EPTR(a, i-1), temp, elem);] *)
Definition swap_prev (a : dynarr) (i : Z) : dynarr :=
  let temp := load (data a) (DARR_EPTR a i) (elem a) in
  let m1 := memcpy (data a) (DARR_EPTR a i) (DARR_EPTR a (Int.sub i 1)) (elem a) in
  let m2 := store m1 (DARR_EPTR a (Int.sub i 1)) temp in
  set_data a m2.

(** The inner loop, [n] bounding the iterations left (at most [i]). *)
Fixpoint sort_inner (comp : list byte -> list byte -> Z) (a : dynarr)
         (n : nat) (i : Z) : dynarr :=
  match n with
  | O => a
  | S n' =>
      if (i >? 0) && (comp (elt a (Int.sub i 1)) (elt a i) >? 0)
      then sort_inner comp (swap_prev a i) n' (Int.sub i 1)
      else a
  end.

(** The outer loop, [n] bounding the iterations left (at most [size - j]). *)
Fixpoint sort_outer (comp : list byte -> list byte -> Z) (a : dynarr)
         (n : nat) (j : Z) : dynarr :=
  match n with
  | O => a
  | S n' =>
      if j <? size a
      then sort_outer comp (sort_inner comp a (Z.to_nat j) j) n' (Int.add j 1)
      else a
  end.

Definition dynarrSortInsert (a : dynarr) (comp : list byte -> list byte -> Z) : dynarr :=
  sort_outer comp a (Z.to_nat (size a)) 1.

(** ** The macros *)

(** [DYNARR_SIZE(A)]. *)
Definition DYNARR_SIZE (a : dynarr) : Z := size a.

(** [DYNARR_VALID(A, I)]: [(I >= 0)&&(I < DARR_SIZE(A))]. *)
Definition DYNARR_VALID (a : dynarr) (i : Z) : bool := (i >=? 0) && (i <? size a).

(** [DARR_ASSERT(E)]: the continuation runs only when [E] is non-zero. *)
Definition DARR_ASSERT {A : Type} (e : bool) (k : option A) : option A :=
  if e then k else None.

(** [DYNARR_AT(A, I)], [DYNARR_FIRST(A)] and [DYNARR_LAST(A)], read as
    rvalues. *)
Definition DYNARR_AT (a : dynarr) (i : Z) : option (list byte) :=
  DARR_ASSERT (DYNARR_VALID a i) (Some (slot_get a (Int.add (offs a) i))).

Definition DYNARR_FIRST (a : dynarr) : option (list byte) :=
  DARR_ASSERT (negb (size a =? 0)) (Some (slot_get a (offs a))).

Definition DYNARR_LAST (a : dynarr) : option (list byte) :=
  DARR_ASSERT (negb (size a =? 0))
    (Some (slot_get a (Int.sub (Int.add (offs a) (size a)) 1))).

(** [DYNARR_CLEAR(A)]: [DARR_OFFS(A) = DARR_SIZE(A) = 0]. *)
Definition DYNARR_CLEAR (a : dynarr) : dynarr := set_offs (set_size a 0) 0.

(** [DYNARR_PUSH(A, V)]:
    [dynarrGrow(&A) ? -1 : ((A)[offs+size] = V, size++)].
    The argument [V] is an expression of the macro's caller and is evaluated
    after [dynarrGrow]; [DYNARR_SHOVE] passes one that reads the array. *)
Definition push_expr (realloc : Z -> bool) (a : dynarr) (V : dynarr -> list byte)
  : Z * dynarr :=
  let (r, a1) := dynarrGrow realloc a in
  if negb (r =? 0) then (-1, a1)
  else
    let a2 := slot_set a1 (Int.add (offs a1) (size a1)) (V a1) in
    (size a2, set_size a2 (Int.add (size a2) 1)).

Definition DYNARR_PUSH (realloc : Z -> bool) (a : dynarr) (v : list byte) : Z * dynarr :=
  push_expr realloc a (fun _ => v).

(** [DYNARR_POP(A)]: [(DARR_ASSERT(size), (A)[offs + --size])]. *)
Definition DYNARR_POP (a : dynarr) : option (list byte * dynarr) :=
  DARR_ASSERT (negb (size a =? 0))
    (let a1 := set_size a (Int.sub (size a) 1) in
     Some (slot_get a1 (Int.add (offs a1) (size a1)), a1)).

(** [DYNARR_DEQUEUE(A)]: [(DARR_ASSERT(size), size--, (A)[offs++])]. *)
Definition DYNARR_DEQUEUE (a : dynarr) : option (list byte * dynarr) :=
  DARR_ASSERT (negb (size a =? 0))
    (let a1 := set_size a (Int.sub (size a) 1) in
     Some (slot_get a1 (offs a1), set_offs a1 (Int.add (offs a1) 1))).

(** The second arm of [DYNARR_INSERT]:
    [(memmove(&(A)[offs+I+1], &(A)[offs+I], elem*(size-I)),
      (A)[offs+I] = V, size++, I)]. *)
Definition insert_tail (a : dynarr) (i : Z) (v : list byte) : dynarr :=
  let a2 := set_data a
              (memmove (data a)
                 (slot a (Int.add (Int.add (offs a) i) 1))
                 (slot a (Int.add (offs a) i))
                 (Int.mul (elem a) (Int.sub (size a) i))) in
  let a3 := slot_set a2 (Int.add (offs a2) i) v in
  set_size a3 (Int.add (size a3) 1).

(** [DYNARR_INSERT(A, I, V)]:
    [(DARR_ASSERT(DYNARR_VALID(A, I)), dynarrGrow(&A) ? -1 : <second arm>)]. *)
Definition DYNARR_INSERT (realloc : Z -> bool) (a : dynarr) (i : Z) (v : list byte)
  : option (Z * dynarr) :=
  DARR_ASSERT (DYNARR_VALID a i)
    (let (r, a1) := dynarrGrow realloc a in
     if negb (r =? 0) then Some (-1, a1)
     else Some (i, insert_tail a1 i v)).

(** [DYNARR_SHOVE(A, I, V)]:
    [(DARR_ASSERT(DYNARR_VALID(A, I)),
      (DYNARR_PUSH(A, (A)[offs+I]) == -1) ? -1 : ((A)[offs+I] = V, I))]. *)
Definition DYNARR_SHOVE (realloc : Z -> bool) (a : dynarr) (i : Z) (v : list byte)
  : option (Z * dynarr) :=
  DARR_ASSERT (DYNARR_VALID a i)
    (let (r, a1) :=
       push_expr realloc a (fun a1 => slot_get a1 (Int.add (offs a1) i)) in
     if r =? -1 then Some (-1, a1)
     else Some (i, slot_set a1 (Int.add (offs a1) i) v)).

(** The container after a [DYNARR_SHOVE] whose [dynarrGrow] succeeded and
    left [a]. *)
Definition shove_tail (a : dynarr) (i : Z) (v : list byte) : dynarr :=
  let a2 := slot_set a (Int.add (offs a) (size a))
              (slot_get a (Int.add (offs a) i)) in
  let a3 := set_size a2 (Int.add (size a2) 1) in
  slot_set a3 (Int.add (offs a3) i) v.

(** [DYNARR_REMOVE(A, I)]:
    [(DARR_ASSERT(DYNARR_VALID(A, I)),
      memmove(&(A)[offs+I], &(A)[offs+I+1], elem*(--size-I)))]. *)
Definition DYNARR_REMOVE (a : dynarr) (i : Z) : option dynarr :=
  DARR_ASSERT (DYNARR_VALID a i)
    (let a1 := set_size a (Int.sub (size a) 1) in
     Some (set_data a1
             (memmove (data a1)
                (slot a1 (Int.add (offs a1) i))
                (slot a1 (Int.add (Int.add (offs a1) i) 1))
                (Int.mul (elem a1) (Int.sub (size a1) i))))).

(** [DYNARR_DITCH(A, I)]:
    [(DARR_ASSERT(DYNARR_VALID(A, I)), (A)[offs+I] = DYNARR_POP(A))]. *)
Definition DYNARR_DITCH (a : dynarr) (i : Z) : option dynarr :=
  DARR_ASSERT (DYNARR_VALID a i)
    (match DYNARR_POP a with
     | Some (v, a1) => Some (slot_set a1 (Int.add (offs a1) i) v)
     | None => None
     end).

Definition DYNARR_RESIZE := dynarrResize.
Definition DYNARR_CAPACITY := dynarrCapacity.
Definition DYNARR_FIND_LIN := dynarrFindLinear.
Definition DYNARR_SORT_INS := dynarrSortInsert.

(** ** Well-formed containers *)

(** The data-model invariant of the container. *)
Definition inv (a : dynarr) : Prop :=
  0 <= offs a /\ 0 <= size a /\ offs a + size a <= capa a.

(** The element area is addressable with [int] arithmetic: elements are at
    least one byte wide and the byte size of the buffer is an [int]. *)
Definition fits (a : dynarr) : Prop :=
  0 < elem a /\ elem a * capa a <= Int.INT_MAX.

(** A value of the element type: [sizeof(T)] bytes. *)
Definition value_of (a : dynarr) (v : list byte) : Prop :=
  Z.of_nat (length v) = elem a.

(** The doubled buffer is still addressable with [int] arithmetic. *)
Definition can_double (a : dynarr) : Prop :=
  elem a * (2 * capa a) <= Int.INT_MAX.

(** When [dynarrGrow] has to reallocate, the doubled buffer is addressable. *)
Definition grow_ok (a : dynarr) : Prop :=
  offs a + size a = capa a -> offs a < size a -> can_double a.

(** The requested size and the addresses derived from it are [int]s. *)
Definition resize_ok (a : dynarr) (s : Z) : Prop :=
  elem a * s <= Int.INT_MAX /\ offs a + s <= Int.INT_MAX.

(** An all-zero element of the container's element type. *)
Definition zero_elem (a : dynarr) : list byte := repeat x00 (Z.to_nat (elem a)).

(** The container is the same but for its element bytes. *)
Definition same_header (a b : dynarr) : Prop :=
  size b = size a /\ offs b = offs a /\ capa b = capa a /\ elem b = elem a.

(** ** Reachable containers *)

(** The states a client can produce: a fresh container, then any sequence of
    the public operations, each with whatever the allocator answers. *)
Inductive reachable : dynarr -> Prop :=
| reach_new (zalloc : Z -> bool) (e : Z) (a : dynarr) :
    0 < e <= Int.INT_MAX -> dynarrNew zalloc e = Some a -> reachable a
| reach_clear (a : dynarr) :
    reachable a -> reachable (DYNARR_CLEAR a)
| reach_push (realloc : Z -> bool) (a : dynarr) (v : list byte) (r : Z) (a' : dynarr) :
    reachable a -> value_of a v -> DYNARR_PUSH realloc a v = (r, a') -> reachable a'
| reach_pop (a : dynarr) (v : list byte) (a' : dynarr) :
    reachable a -> DYNARR_POP a = Some (v, a') -> reachable a'
| reach_dequeue (a : dynarr) (v : list byte) (a' : dynarr) :
    reachable a -> DYNARR_DEQUEUE a = Some (v, a') -> reachable a'
| reach_insert (realloc : Z -> bool) (a : dynarr) (i : Z) (v : list byte)
               (r : Z) (a' : dynarr) :
    reachable a -> value_of a v -> DYNARR_INSERT realloc a i v = Some (r, a') ->
    reachable a'
| reach_shove (realloc : Z -> bool) (a : dynarr) (i : Z) (v : list byte)
              (r : Z) (a' : dynarr) :
    reachable a -> value_of a v -> DYNARR_SHOVE realloc a i v = Some (r, a') ->
    reachable a'
| reach_remove (a : dynarr) (i : Z) (a' : dynarr) :
    reachable a -> DYNARR_REMOVE a i = Some a' -> reachable a'
| reach_ditch (a : dynarr) (i : Z) (a' : dynarr) :
    reachable a -> DYNARR_DITCH a i = Some a' -> reachable a'
| reach_resize (realloc : Z -> bool) (a : dynarr) (s r : Z) (a' : dynarr) :
    reachable a -> DYNARR_RESIZE realloc a s = (r, a') -> reachable a'
| reach_capacity (realloc : Z -> bool) (a : dynarr) (c r : Z) (a' : dynarr) :
    reachable a -> DYNARR_CAPACITY realloc a c = (r, a') -> reachable a'
| reach_sort (a : dynarr) (comp : list byte -> list byte -> Z) :
    reachable a -> reachable (DYNARR_SORT_INS a comp).

(** An allocator that always succeeds, and one that always fails. *)
Definition alloc_ok : Z -> bool := fun _ => true.
Definition alloc_fail : Z -> bool := fun _ => false.

(** Sample containers of 4-byte elements used by the examples below. *)
Definition fresh4 : dynarr := mkDynarr 1 4 0 0 (fun _ => x00).
Definition word (b : byte) : list byte := [b; x00; x00; x00].

(** [fresh4] after [DYNARR_CAPACITY(a, 0)]: no element slot is reserved. *)
Definition empty_block : dynarr := snd (DYNARR_CAPACITY alloc_ok fresh4 0).

(** [fresh4] after pushing [1], [2] and dequeuing once. *)
Definition queue_tail : dynarr :=
  let a1 := snd (DYNARR_PUSH alloc_ok fresh4 (word x01)) in
  let a2 := snd (DYNARR_PUSH alloc_ok a1 (word x02)) in
  match DYNARR_DEQUEUE a2 with
  | Some (_, a3) => a3
  | None => a2
  end.

(** [fresh4] after one push: capacity 1, one element, offset 0. *)
Definition single : dynarr := snd (DYNARR_PUSH alloc_ok fresh4 (word x01)).

(** [fresh4] after pushing the elements of [vs] in order. *)
Definition pushed (vs : list (list byte)) : dynarr :=
  fold_left (fun a v => snd (DYNARR_PUSH alloc_ok a v)) vs fresh4.

Definition tagged (k t : byte) : list byte := [k; t; x00; x00].

Definition unsorted4 : dynarr :=
  pushed [tagged x02 x0a; tagged x01 x0b; tagged x02 x0c; tagged x01 x0d].

(** ** Insertion sort on lists

    The list view of [dynarrSortInsert].  The sorted prefix is kept reversed,
    so that its head is the element next to the one being inserted, as the
    inner loop meets them. *)

Section ListSortDefs.
Variable E : Type.
Variable comp : E -> E -> Z.

(** Insert [x] after a sorted prefix whose reversal is [r]: [x] passes
    every element that compares greater. *)
Fixpoint sift_in (x : E) (r : list E) : list E :=
  match r with
  | [] => [x]
  | y :: r' => if comp y x >? 0 then y :: sift_in x r' else x :: r
  end.

(** The reversed sorted prefix after inserting the elements of [l]. *)
Definition sift_all (l r : list E) : list E :=
  fold_left (fun r x => sift_in x r) l r.

(** [comp] is a consistent total order: the sign of [comp y x] mirrors that
    of [comp x y], and "not greater" is transitive. *)
Definition total_order : Prop :=
  (forall x y, comp x y > 0 <-> comp y x < 0) /\
  (forall x y z, comp x y <= 0 -> comp y z <= 0 -> comp x z <= 0).

(** A reversed prefix is descending when each element is not greater than
    the one before it in the list. *)
Fixpoint desc (r : list E) : Prop :=
  match r with
  | [] => True
  | y :: r' =>
      match r' with
      | [] => True
      | z :: _ => comp z y <= 0
      end /\ desc r'
  end.

(** The elements equivalent to [z], in the order they occur. *)
Definition ties (z : E) (l : list E) : list E :=
  filter (fun e => comp z e =? 0) l.

End ListSortDefs.

Arguments sift_in {E} comp x r.
Arguments sift_all {E} comp l r.
Arguments total_order {E} comp.
Arguments desc {E} comp r.
Arguments ties {E} comp z l.

(** A comparator for the examples: order by the first byte, as a C
    comparator returning the difference of two keys would. *)
Definition first_byte (e : list byte) : Z :=
  match e with
  | b :: _ => Z.of_N (Byte.to_N b)
  | [] => 0
  end.

Definition by_first_byte (x y : list byte) : Z := first_byte x - first_byte y.

(** ** Containers at the edge of [int] *)





(** ** Further parts of the interface *)

(** [DYNARR_AT(A, I) = V]: the macro used as an lvalue. *)
Definition DYNARR_AT_assign (a : dynarr) (i : Z) (v : list byte) : option dynarr :=
  DARR_ASSERT (DYNARR_VALID a i) (Some (slot_set a (Int.add (offs a) i) v)).

(** The C library's [bsearch(key, base, nmemb, size, compar)] on the byte
    memory: the address of an element, or [None] for a null pointer. *)
Definition bsearch_fn : Type :=
  list byte -> mem -> Z -> Z -> Z -> (list byte -> list byte -> Z) -> option Z.

(** What the C standard promises of a non-null result of [bsearch]: it is
    the address of one of the [nmemb] elements, and that element compares
    equal to the key. *)
Definition bsearch_sound (bsearch : bsearch_fn) : Prop :=
  forall k m base nmemb sz comp p,
    bsearch k m base nmemb sz comp = Some p ->
    exists i, 0 <= i < nmemb /\ p = base + sz * i /\ comp k (load m p sz) = 0.

(** *** dynarrFindBinary
    [res = bsearch(k, DARR_EPTR(a, 0), size, elem, comp);
     if (!res) return -1;
     return ((char* )res - DARR_EPTR(a, 0)) / elem;]
    The difference of the two addresses is divided as C divides (towards
    zero) and returned as an [int]. *)
Definition dynarrFindBinary (bsearch : bsearch_fn) (a : dynarr)
           (comp : list byte -> list byte -> Z) (k : list byte) : Z :=
  match bsearch k (data a) (DARR_EPTR a 0)
                (Int.to_size_t (size a)) (Int.to_size_t (elem a)) comp with
  | None => -1
  | Some res => Int.wrap (Z.quot (res - DARR_EPTR a 0) (elem a))
  end.

Definition DYNARR_FIND_BIN := dynarrFindBinary.

(** A [bsearch] for the examples: the address of the first of the [n]
    elements from [p] on that compares equal to the key. *)
Fixpoint scan_search (k : list byte) (m : mem) (p : Z) (n : nat) (sz : Z)
         (comp : list byte -> list byte -> Z) : option Z :=
  match n with
  | O => None
  | S n' =>
      if comp k (load m p sz) =? 0 then Some p
      else scan_search k m (p + sz) n' sz comp
  end.

Definition scan_bsearch : bsearch_fn :=
  fun k m base nmemb sz comp => scan_search k m base (Z.to_nat nmemb) sz comp.

(** The container after pushing the values of [vs] one after the other. *)
Definition push_all (realloc : Z -> bool) (a : dynarr) (vs : list (list byte)) : dynarr :=
  fold_left (fun a v => snd (DYNARR_PUSH realloc a v)) vs a.

(** ** Facts on machine integers *)

Lemma wrap_small (z : Z) : Int.in_range z -> Int.wrap z = z.
Proof.
  unfold Int.in_range, Int.wrap, Int.INT_MIN, Int.INT_MAX, Int.modulus.
  intros H. rewrite Z.mod_small by lia. lia.
Qed.

Lemma scaled_bound (e k c M : Z) :
  0 < e -> 0 <= k <= c -> e * c <= M -> 0 <= e * k <= M.
Proof. intros He Hk Hc. split; nia. Qed.

Lemma scaled_range (e k c : Z) :
  0 < e -> 0 <= k <= c -> e * c <= Int.INT_MAX -> Int.in_range (e * k).
Proof.
  intros He Hk Hc. unfold Int.in_range.
  pose proof (scaled_bound e k c Int.INT_MAX He Hk Hc).
  unfold Int.INT_MIN, Int.INT_MAX in *. lia.
Qed.

Lemma count_range (e k c : Z) :
  0 < e -> 0 <= k <= c -> e * c <= Int.INT_MAX -> Int.in_range k.
Proof.
  intros He Hk Hc. unfold Int.in_range, Int.INT_MIN, Int.INT_MAX in *.
  split; [lia | nia].
Qed.

Lemma add_small (x y : Z) : Int.in_range (x + y) -> Int.add x y = x + y.
Proof. apply wrap_small. Qed.

Lemma sub_small (x y : Z) : Int.in_range (x - y) -> Int.sub x y = x - y.
Proof. apply wrap_small. Qed.

Lemma mul_small (x y : Z) : Int.in_range (x * y) -> Int.mul x y = x * y.
Proof. apply wrap_small. Qed.

(** From here on [int] arithmetic is only rewritten with the lemmas above. *)
#[global] Opaque Int.wrap Int.add Int.sub Int.mul.

(** Reduce field projections of updated records, and nothing else. *)
Ltac fields :=
  cbn [fst snd capa elem offs size data set_capa set_offs set_size set_data
       slot_set] in *.

(** ** Facts on the byte memory *)

Lemma load_length (m : mem) (p n : Z) : length (load m p n) = Z.to_nat n.
Proof. unfold load. now rewrite length_map, length_seq. Qed.

Lemma load_nth (m : mem) (p n : Z) (k : nat) (d : byte) :
  (k < Z.to_nat n)%nat -> nth k (load m p n) d = m (p + Z.of_nat k).
Proof.
  intros Hk. unfold load.
  rewrite (nth_indep _ d (m (p + Z.of_nat 0))) by (now rewrite length_map, length_seq).
  rewrite (map_nth (fun k => m (p + Z.of_nat k))), seq_nth by assumption.
  reflexivity.
Qed.

Lemma load_ext (m m' : mem) (p p' n : Z) :
  (forall k, 0 <= k < n -> m (p + k) = m' (p' + k)) ->
  load m p n = load m' p' n.
Proof.
  intros H. unfold load. apply map_ext_in.
  intros k Hk. apply in_seq in Hk. apply H. lia.
Qed.

Lemma store_in (m : mem) (p q : Z) (bs : list byte) :
  p <= q < p + Z.of_nat (length bs) ->
  store m p bs q = nth (Z.to_nat (q - p)) bs x00.
Proof.
  intros H. unfold store.
  replace (p <=? q) with true by (symmetry; apply Z.leb_le; lia).
  replace (q <? p + Z.of_nat (length bs)) with true by (symmetry; apply Z.ltb_lt; lia).
  reflexivity.
Qed.

Lemma store_out (m : mem) (p q : Z) (bs : list byte) :
  q < p \/ p + Z.of_nat (length bs) <= q ->
  store m p bs q = m q.
Proof.
  intros H. unfold store.
  destruct (Z.leb_spec p q); destruct (Z.ltb_spec q (p + Z.of_nat (length bs)));
    simpl; try reflexivity; lia.
Qed.

Lemma load_store_same (m : mem) (p : Z) (bs : list byte) :
  load (store m p bs) p (Z.of_nat (length bs)) = bs.
Proof.
  apply nth_ext with (d := x00) (d' := x00).
  - now rewrite load_length, Nat2Z.id.
  - intros k Hk. rewrite load_length in Hk. rewrite load_nth by assumption.
    rewrite Nat2Z.id in Hk. rewrite store_in by lia. f_equal. lia.
Qed.

Lemma load_store_other (m : mem) (p q n : Z) (bs : list byte) :
  q + n <= p \/ p + Z.of_nat (length bs) <= q ->
  load (store m p bs) q n = load m q n.
Proof.
  intros H. apply load_ext. intros k Hk. apply store_out. lia.
Qed.

Lemma memmove_in (m : mem) (dst src n q : Z) :
  dst <= q < dst + n -> memmove m dst src n q = m (src + (q - dst)).
Proof.
  intros H. unfold memmove. rewrite store_in by (rewrite load_length; lia).
  rewrite load_nth by lia. f_equal. lia.
Qed.

Lemma memmove_out (m : mem) (dst src n q : Z) :
  q < dst \/ dst + Z.max 0 n <= q -> memmove m dst src n q = m q.
Proof.
  intros H. unfold memmove. apply store_out. rewrite load_length. lia.
Qed.

Lemma memset_in (m : mem) (p n q : Z) (c : byte) :
  p <= q < p + n -> memset m p c n q = c.
Proof.
  intros H. unfold memset. rewrite store_in by (rewrite repeat_length; lia).
  apply nth_repeat_lt. lia.
Qed.

Lemma memset_out (m : mem) (p n q : Z) (c : byte) :
  q < p \/ p + Z.max 0 n <= q -> memset m p c n q = m q.
Proof.
  intros H. unfold memset. apply store_out. rewrite repeat_length. lia.
Qed.

Lemma memcmp_bytes_eq (x y : list byte) :
  length x = length y -> (memcmp_bytes x y = 0 <-> x = y).
Proof.
  revert y. induction x as [|a x IH]; intros [|b y] Hlen; simpl in *; try discriminate.
  - tauto.
  - destruct (Byte.eqb a b) eqn:E.
    + apply byte_dec_bl in E. subst b. rewrite IH by congruence.
      split; [intros ->; reflexivity | intros H; now inversion H].
    + apply eqb_false in E. split.
      * intros H. exfalso. apply E.
        assert (Hn : Byte.to_N a = Byte.to_N b) by lia.
        pose proof (Byte.of_to_N a) as Ha. rewrite Hn, Byte.of_to_N in Ha.
        congruence.
      * intros H. inversion H. contradiction.
Qed.

(** ** Facts on the container layout *)

Lemma index_range (a : dynarr) (k : Z) :
  fits a -> 0 <= k <= capa a -> Int.in_range k.
Proof. intros [He Hc] Hk. now apply (count_range (elem a) k (capa a)). Qed.

Lemma bytes_range (a : dynarr) (k : Z) :
  fits a -> 0 <= k <= capa a -> Int.in_range (elem a * k).
Proof. intros [He Hc] Hk. now apply (scaled_range (elem a) k (capa a)). Qed.

Lemma EPTR_eq (a : dynarr) (i : Z) :
  fits a -> 0 <= offs a + i <= capa a ->
  DARR_EPTR a i = elem a * (offs a + i).
Proof.
  intros Hf Hi. unfold DARR_EPTR.
  rewrite (add_small (offs a) i) by (now apply (index_range a)).
  apply mul_small. now apply bytes_range.
Qed.

Lemma elt_slot (a : dynarr) (i : Z) :
  fits a -> 0 <= offs a + i <= capa a ->
  elt a i = slot_get a (offs a + i).
Proof. intros Hf Hi. unfold elt, slot_get, slot. now rewrite EPTR_eq. Qed.

Lemma contents_length (a : dynarr) : length (contents a) = Z.to_nat (size a).
Proof. unfold contents. now rewrite length_map, length_seq. Qed.

Lemma contents_nth (a : dynarr) (i : nat) (d : list byte) :
  (i < Z.to_nat (size a))%nat -> nth i (contents a) d = elt a (Z.of_nat i).
Proof.
  intros Hi. unfold contents.
  rewrite (nth_indep _ d (elt a (Z.of_nat 0))) by (now rewrite length_map, length_seq).
  rewrite (map_nth (fun i => elt a (Z.of_nat i))), seq_nth by assumption.
  reflexivity.
Qed.

Lemma contents_ext (a b : dynarr) :
  size a = size b ->
  (forall i, 0 <= i < size a -> elt a i = elt b i) ->
  contents a = contents b.
Proof.
  intros Hs H. unfold contents. rewrite <- Hs. apply map_ext_in.
  intros i Hi. apply in_seq in Hi. apply H. lia.
Qed.

Lemma elt_length (a : dynarr) (i : Z) : length (elt a i) = Z.to_nat (elem a).
Proof. apply load_length. Qed.

(** Reading a slot after a copy of [n] slots from slot [src] to slot [dst]. *)
Lemma load_memmove_slots (m : mem) (e dst src n x : Z) :
  0 < e -> 0 <= n ->
  load (memmove m (e * dst) (e * src) (e * n)) (e * x) e =
  if (dst <=? x) && (x <? dst + n) then load m (e * (src + (x - dst))) e
  else load m (e * x) e.
Proof.
  intros He Hn.
  destruct (Z.leb_spec dst x); destruct (Z.ltb_spec x (dst + n)); simpl;
    apply load_ext; intros k Hk.
  - rewrite memmove_in by nia. f_equal. lia.
  - apply memmove_out. right. rewrite Z.max_r by nia. nia.
  - apply memmove_out. left. nia.
  - apply memmove_out. left. nia.
Qed.

Lemma load_store_slots (m : mem) (e dst x : Z) (v : list byte) :
  0 < e -> Z.of_nat (length v) = e ->
  load (store m (e * dst) v) (e * x) e =
  if dst =? x then v else load m (e * x) e.
Proof.
  intros He Hv. destruct (Z.eqb_spec dst x) as [->|Hne].
  - rewrite <- Hv at 3. apply load_store_same.
  - apply load_store_other. rewrite Hv. nia.
Qed.

(** ** dynarrGrow *)

Lemma grow_full_test (a : dynarr) :
  inv a -> fits a -> Int.add (offs a) (size a) = offs a + size a.
Proof.
  intros (Ho & Hs & Hc) Hf. apply add_small. apply (index_range a); [assumption | lia].
Qed.

Lemma grow_compact_eq (realloc : Z -> bool) (a : dynarr) :
  inv a -> fits a -> offs a + size a = capa a -> size a <= offs a ->
  dynarrGrow realloc a =
  (0, set_offs (set_data a (memmove (data a) (elem a * 0) (elem a * offs a)
                                    (elem a * size a))) 0).
Proof.
  intros Hi Hf Hfull Hge. unfold dynarrGrow.
  rewrite grow_full_test, Hfull, Z.eqb_refl by assumption.
  replace (offs a >=? size a) with true by (symmetry; apply Z.geb_le; lia).
  destruct Hi as (Ho & Hs & Hc).
  rewrite EPTR_eq by (try assumption; lia).
  rewrite (mul_small (elem a) (size a)) by (apply bytes_range; [assumption | lia]).
  unfold memcpy, memmove. now rewrite Z.mul_0_r, Z.add_0_r.
Qed.

Lemma grow_double_eq (realloc : Z -> bool) (a : dynarr) :
  inv a -> fits a -> can_double a -> offs a + size a = capa a -> offs a < size a ->
  dynarrGrow realloc a =
  if realloc (request (Int.mul (Int.mul (elem a) (capa a)) 2))
  then (0, set_capa a (2 * capa a)) else (-1, a).
Proof.
  intros Hi Hf Hd Hfull Hlt. unfold dynarrGrow.
  rewrite grow_full_test, Hfull, Z.eqb_refl by assumption.
  replace (offs a >=? size a) with false by (symmetry; rewrite Z.geb_leb; apply Z.leb_gt; lia).
  rewrite (mul_small (capa a) 2), (Z.mul_comm (capa a) 2); [reflexivity|].
  destruct Hi as (Ho & Hs & Hc). destruct Hf as (He & Hb).
  unfold can_double in Hd.
  unfold Int.in_range, Int.INT_MIN, Int.INT_MAX in *. split; [lia | nia].
Qed.

Lemma grow_idle_eq (realloc : Z -> bool) (a : dynarr) :
  inv a -> fits a -> offs a + size a < capa a -> dynarrGrow realloc a = (0, a).
Proof.
  intros Hi Hf Hlt. unfold dynarrGrow. rewrite grow_full_test by assumption.
  now replace (offs a + size a =? capa a) with false by (symmetry; apply Z.eqb_neq; lia).
Qed.

(** The regions of the [memcpy] in [dynarrGrow] never overlap: the source
    starts where the destination has already ended. *)
Lemma grow_memcpy_disjoint (a : dynarr) :
  inv a -> fits a -> size a <= offs a ->
  0 + Int.mul (elem a) (size a) <= DARR_EPTR a 0.
Proof.
  intros (Ho & Hs & Hc) Hf Hge.
  rewrite EPTR_eq by (try assumption; lia).
  rewrite (mul_small (elem a) (size a)) by (apply bytes_range; [assumption | lia]).
  destruct Hf as (He & _). nia.
Qed.

(** After compaction by [dynarrGrow] every live element sits at its own
    index in the buffer. *)
Lemma grow_compact_slots (a : dynarr) (i : Z) :
  inv a -> fits a -> size a <= offs a -> 0 <= i < size a ->
  load (memmove (data a) (elem a * 0) (elem a * offs a) (elem a * size a))
       (elem a * i) (elem a) = elt a i.
Proof.
  intros (Ho & Hs & Hc) Hf Hge Hi.
  rewrite load_memmove_slots by (destruct Hf; lia).
  replace ((0 <=? i) && (i <? 0 + size a)) with true
    by (symmetry; apply andb_true_iff; split; [apply Z.leb_le | apply Z.ltb_lt]; lia).
  unfold elt. rewrite EPTR_eq by (try assumption; lia).
  f_equal. f_equal. lia.
Qed.

(** ** The sample containers *)

Lemma fresh4_reachable : reachable fresh4.
Proof. apply (reach_new alloc_ok 4); [unfold Int.INT_MAX; lia | reflexivity]. Qed.

Lemma empty_block_reachable : reachable empty_block.
Proof.
  apply (reach_capacity alloc_ok fresh4 0 (fst (DYNARR_CAPACITY alloc_ok fresh4 0))).
  - exact fresh4_reachable.
  - unfold empty_block. now destruct (DYNARR_CAPACITY alloc_ok fresh4 0).
Qed.

Lemma empty_block_fields :
  capa empty_block = 0 /\ elem empty_block = 4 /\
  offs empty_block = 0 /\ size empty_block = 0.
Proof. vm_compute. repeat split. Qed.

Lemma queue_tail_reachable : reachable queue_tail.
Proof.
  set (a1 := snd (DYNARR_PUSH alloc_ok fresh4 (word x01))).
  set (a2 := snd (DYNARR_PUSH alloc_ok a1 (word x02))).
  assert (H1 : reachable a1).
  { apply (reach_push alloc_ok fresh4 (word x01) (fst (DYNARR_PUSH alloc_ok fresh4 (word x01)))).
    - exact fresh4_reachable.
    - reflexivity.
    - unfold a1. now destruct (DYNARR_PUSH alloc_ok fresh4 (word x01)). }
  assert (H2 : reachable a2).
  { apply (reach_push alloc_ok a1 (word x02) (fst (DYNARR_PUSH alloc_ok a1 (word x02)))).
    - exact H1.
    - vm_compute. reflexivity.
    - unfold a2. now destruct (DYNARR_PUSH alloc_ok a1 (word x02)). }
  assert (Hd : exists v, DYNARR_DEQUEUE a2 = Some (v, queue_tail)).
  { unfold queue_tail. fold a1. fold a2.
    assert (Hs : size a2 = 2) by (vm_compute; reflexivity).
    unfold DYNARR_DEQUEUE, DARR_ASSERT. rewrite Hs. simpl. eexists. reflexivity. }
  destruct Hd as [v Hd]. exact (reach_dequeue a2 v queue_tail H2 Hd).
Qed.

Lemma queue_tail_fields :
  capa queue_tail = 2 /\ elem queue_tail = 4 /\
  offs queue_tail = 1 /\ size queue_tail = 1 /\
  contents queue_tail = [word x02].
Proof. vm_compute. repeat split. Qed.

(** ** dynarrGrow: what a call leaves behind *)

Lemma contents_set_capa (a : dynarr) (c : Z) : contents (set_capa a c) = contents a.
Proof. reflexivity. Qed.

Lemma grow_compact_contents (a : dynarr) :
  inv a -> fits a -> offs a + size a = capa a -> size a <= offs a ->
  contents (set_offs (set_data a (memmove (data a) (elem a * 0) (elem a * offs a)
                                          (elem a * size a))) 0) = contents a.
Proof.
  intros Hi Hf Hfull Hge. symmetry. apply contents_ext; [reflexivity|].
  intros i Hr. symmetry. unfold elt at 1.
  destruct Hi as (Ho & Hs & Hc).
  rewrite EPTR_eq by (simpl; first [exact Hf | lia]). simpl.
  now apply grow_compact_slots.
Qed.

Lemma grow_result (realloc : Z -> bool) (a : dynarr) :
  inv a -> fits a -> grow_ok a ->
  (fst (dynarrGrow realloc a) = 0 /\
   inv (snd (dynarrGrow realloc a)) /\ fits (snd (dynarrGrow realloc a)) /\
   elem (snd (dynarrGrow realloc a)) = elem a /\
   size (snd (dynarrGrow realloc a)) = size a /\
   contents (snd (dynarrGrow realloc a)) = contents a /\
   capa a <= capa (snd (dynarrGrow realloc a)) /\
   (0 < capa a ->
    offs (snd (dynarrGrow realloc a)) + size (snd (dynarrGrow realloc a))
    < capa (snd (dynarrGrow realloc a))))
  \/
  (dynarrGrow realloc a = (-1, a) /\
   offs a + size a = capa a /\ offs a < size a /\
   realloc (request (Int.mul (Int.mul (elem a) (capa a)) 2)) = false).
Proof.
  intros Hi Hf Hg.
  assert (Hi' := Hi). destruct Hi' as (Ho & Hs & Hc).
  destruct (Z.eq_dec (offs a + size a) (capa a)) as [Hfull|Hroom].
  - destruct (Z_lt_le_dec (offs a) (size a)) as [Hlt|Hge].
    + specialize (Hg Hfull Hlt). rewrite (grow_double_eq realloc a) by assumption.
      destruct (realloc _) eqn:Hr.
      * left. unfold inv, fits, can_double in *. fields.
        repeat split; try lia.
      * right. auto.
    + left. rewrite (grow_compact_eq realloc a) by assumption. fields.
      rewrite grow_compact_contents by assumption.
      unfold inv, fits in *. fields. repeat split; try lia.
  - left. rewrite (grow_idle_eq realloc a) by (try assumption; lia). fields.
    unfold inv, fits in *. repeat split; try lia.
Qed.






(** ** The shared compaction step of dynarrResize and dynarrCapacity *)

Lemma compact_eq (a : dynarr) :
  inv a -> fits a ->
  compact a =
  if offs a =? 0 then a
  else set_offs (set_data a (memmove (data a) (elem a * 0) (elem a * offs a)
                                     (elem a * size a))) 0.
Proof.
  intros (Ho & Hs & Hc) Hf. unfold compact. destruct (offs a =? 0); [reflexivity|].
  rewrite EPTR_eq by (try assumption; lia).
  rewrite (mul_small (elem a) (size a)) by (apply bytes_range; [assumption | lia]).
  now rewrite Z.mul_0_r, Z.add_0_r.
Qed.

Lemma compact_fields (a : dynarr) :
  offs (compact a) = 0 /\ size (compact a) = size a /\
  capa (compact a) = capa a /\ elem (compact a) = elem a.
Proof.
  unfold compact. destruct (Z.eqb_spec (offs a) 0) as [H0|H0]; fields; auto.
Qed.

Lemma compact_inv (a : dynarr) : inv a -> inv (compact a).
Proof.
  intros Hi. unfold inv in *.
  destruct (compact_fields a) as (-> & -> & -> & _). lia.
Qed.

Lemma compact_fits (a : dynarr) : fits a -> fits (compact a).
Proof.
  intros Hf. unfold fits in *.
  now destruct (compact_fields a) as (_ & _ & -> & ->).
Qed.

Lemma compact_slots (a : dynarr) (i : Z) :
  inv a -> fits a -> 0 <= i < size a ->
  slot_get (compact a) i = elt a i.
Proof.
  intros Hi Hf Hr. rewrite compact_eq by assumption.
  assert (Hi' := Hi). destruct Hi' as (Ho & Hs & Hc).
  destruct (Z.eqb_spec (offs a) 0) as [H0|H0].
  - rewrite elt_slot by (try assumption; lia). f_equal. lia.
  - unfold slot_get, slot. fields.
    rewrite load_memmove_slots by (destruct Hf; lia).
    replace ((0 <=? i) && (i <? 0 + size a)) with true
      by (symmetry; apply andb_true_iff; split; [apply Z.leb_le | apply Z.ltb_lt]; lia).
    unfold elt. rewrite EPTR_eq by (try assumption; lia).
    f_equal. f_equal. lia.
Qed.

Lemma compact_contents (a : dynarr) :
  inv a -> fits a -> contents (compact a) = contents a.
Proof.
  intros Hi Hf. destruct (compact_fields a) as (Ho' & Hs' & Hc' & He').
  apply contents_ext; [assumption|].
  intros i Hr. rewrite Hs' in Hr.
  rewrite elt_slot.
  - rewrite Ho', Z.add_0_l. now apply compact_slots.
  - now apply compact_fits.
  - rewrite Ho', Hc'. unfold inv in Hi. lia.
Qed.

(** ** dynarrResize *)

Lemma load_memset_slots (m : mem) (e dst n x : Z) (c : byte) :
  0 < e -> 0 <= n ->
  load (memset m (e * dst) c (e * n)) (e * x) e =
  if (dst <=? x) && (x <? dst + n) then repeat c (Z.to_nat e)
  else load m (e * x) e.
Proof.
  intros He Hn.
  destruct (Z.leb_spec dst x); destruct (Z.ltb_spec x (dst + n)); cbn [andb].
  - unfold load. transitivity (map (fun _ : nat => c) (seq 0 (Z.to_nat e))).
    + apply map_ext_in. intros k Hk. apply in_seq in Hk. apply memset_in. nia.
    + now rewrite map_const, length_seq.
  - apply load_ext. intros k Hk. apply memset_out. right. rewrite Z.max_r by nia. nia.
  - apply load_ext. intros k Hk. apply memset_out. left. nia.
  - apply load_ext. intros k Hk. apply memset_out. left. nia.
Qed.

(** A list is the logical sequence when it has the right length and agrees
    with the container at every index. *)
Lemma contents_intro (a : dynarr) (l : list (list byte)) :
  length l = Z.to_nat (size a) ->
  (forall i, (i < Z.to_nat (size a))%nat -> nth i l [] = elt a (Z.of_nat i)) ->
  contents a = l.
Proof.
  intros Hlen H. apply nth_ext with (d := []) (d' := []).
  - now rewrite contents_length.
  - intros i Hi. rewrite contents_length in Hi.
    rewrite contents_nth by assumption. symmetry. now apply H.
Qed.

Lemma resize_fill_spec (a : dynarr) (s : Z) :
  inv a -> fits a -> size a < s -> offs a + s <= capa a ->
  fst (resize_fill a s) = s /\
  size (snd (resize_fill a s)) = s /\
  offs (snd (resize_fill a s)) = offs a /\
  capa (snd (resize_fill a s)) = capa a /\
  elem (snd (resize_fill a s)) = elem a /\
  contents (snd (resize_fill a s)) =
    contents a ++ repeat (zero_elem a) (Z.to_nat (s - size a)).
Proof.
  intros Hi Hf Hlt Hcap. assert (Hi' := Hi). destruct Hi' as (Ho & Hs & Hc).
  unfold resize_fill. fields. do 5 (split; [reflexivity|]).
  apply contents_intro.
  - rewrite length_app, contents_length, repeat_length. fields. lia.
  - fields. intros i Hr. unfold elt, DARR_EPTR. fields.
    rewrite (add_small (offs a) (Z.of_nat i)) by (apply (index_range a); [assumption | lia]).
    rewrite (mul_small (elem a) (offs a + Z.of_nat i))
      by (apply bytes_range; [assumption | lia]).
    rewrite (add_small (offs a) (size a)) by (apply (index_range a); [assumption | lia]).
    rewrite (mul_small (elem a) (offs a + size a))
      by (apply bytes_range; [assumption | lia]).
    rewrite (sub_small s (size a)) by (apply (index_range a); [assumption | lia]).
    rewrite (mul_small (elem a) (s - size a)) by (apply bytes_range; [assumption | lia]).
    rewrite load_memset_slots by (destruct Hf; lia).
    destruct (Nat.lt_ge_cases i (Z.to_nat (size a))) as [Hl|Hg].
    + rewrite app_nth1 by (now rewrite contents_length).
      rewrite contents_nth by assumption.
      replace ((offs a + size a <=? offs a + Z.of_nat i) &&
               (offs a + Z.of_nat i <? offs a + size a + (s - size a))) with false.
      * unfold elt. now rewrite EPTR_eq by (try assumption; lia).
      * symmetry. apply andb_false_iff. left. apply Z.leb_gt. lia.
    + rewrite app_nth2 by (now rewrite contents_length).
      rewrite contents_length, nth_repeat_lt by lia.
      replace ((offs a + size a <=? offs a + Z.of_nat i) &&
               (offs a + Z.of_nat i <? offs a + size a + (s - size a))) with true.
      * reflexivity.
      * symmetry. apply andb_true_iff. split; [apply Z.leb_le | apply Z.ltb_lt]; lia.
Qed.

Lemma resize_shrink_eq (realloc : Z -> bool) (a : dynarr) (s : Z) :
  s < size a ->
  dynarrResize realloc a s =
  if 0 <? s then (s, set_size a s) else (0, set_offs (set_size a 0) 0).
Proof.
  intros Hlt. unfold dynarrResize.
  replace (s <? size a) with true by (symmetry; apply Z.ltb_lt; lia).
  destruct (Z.ltb_spec s 0); destruct (Z.ltb_spec 0 s); try lia; fields.
  - reflexivity.
  - replace (s =? 0) with false by (symmetry; apply Z.eqb_neq; lia). reflexivity.
  - replace s with 0 by lia. reflexivity.
Qed.

Lemma resize_grow_eq (realloc : Z -> bool) (a : dynarr) (s : Z) :
  inv a -> fits a -> resize_ok a s -> size a < s ->
  dynarrResize realloc a s =
  if offs a + s <=? capa a then resize_fill a s
  else if s <=? capa a then resize_fill (compact a) s
  else if realloc (request (Int.mul (elem a) s))
       then resize_fill (set_capa (compact a) s) s
       else (-1, compact a).
Proof.
  intros Hi Hf (Hb & Hr) Hlt. destruct Hi as (Ho & Hs & Hc).
  unfold dynarrResize.
  replace (s <? size a) with false by (symmetry; apply Z.ltb_ge; lia).
  replace (s >? size a) with true by (symmetry; apply Z.gtb_lt; lia).
  rewrite (add_small (offs a) s)
    by (unfold Int.in_range, Int.INT_MIN, Int.INT_MAX in *; lia).
  destruct (compact_fields a) as (_ & _ & Hcc & Hce).
  rewrite Hcc, Hce, !Z.gtb_ltb.
  destruct (Z.ltb_spec (capa a) (offs a + s)); destruct (Z.leb_spec (offs a + s) (capa a));
    try lia; [|reflexivity].
  destruct (Z.ltb_spec (capa a) s); destruct (Z.leb_spec s (capa a)); try lia; reflexivity.
Qed.




(** C9. For a negative requested size, [dynarrResize] never consults the
    allocator: it sets [size] and [offs] to 0 and returns 0. *)
Theorem dynarrResize_negative (a : dynarr) (s : Z) :
  0 <= size a -> s < 0 ->
  exists a',
    (forall realloc, dynarrResize realloc a s = (0, a')) /\
    size a' = 0 /\ offs a' = 0 /\ capa a' = capa a /\ elem a' = elem a /\
    0 <> s /\ 0 <> -1.
Proof.
  intros Hs Hneg. exists (set_offs (set_size a 0) 0). split.
  - intros realloc. rewrite resize_shrink_eq by lia.
    now replace (0 <? s) with false by (symmetry; apply Z.ltb_ge; lia).
  - fields. repeat split; lia.
Qed.

Lemma dynarrResize_negative_witness :
  exists a',
    (forall realloc, dynarrResize realloc queue_tail (-5) = (0, a')) /\
    size a' = 0 /\ offs a' = 0 /\ capa a' = capa queue_tail /\
    elem a' = elem queue_tail /\ 0 <> -5 /\ 0 <> -1.
Proof.
  apply (dynarrResize_negative queue_tail (-5)).
  - vm_compute. intro; discriminate.
  - lia.
Defined.


(** ** Sizes beyond [int] *)






(** ** dynarrCapacity *)

Lemma capacity_eq (realloc : Z -> bool) (a : dynarr) (c : Z) :
  dynarrCapacity realloc a c =
  if Z.max c (size a) =? capa a then (capa a, compact a)
  else if realloc (request (Int.mul (elem a) (Z.max c (size a))))
       then (Z.max c (size a), set_capa (compact a) (Z.max c (size a)))
       else (-1, compact a).
Proof.
  unfold dynarrCapacity.
  destruct (compact_fields a) as (_ & _ & Hcc & Hce). rewrite Hcc, Hce.
  replace (if c <? size a then size a else c) with (Z.max c (size a))
    by (destruct (Z.ltb_spec c (size a)); lia).
  destruct (Z.max c (size a) =? capa a); cbn [negb]; [reflexivity|].
  now destruct (realloc _).
Qed.

(** ** DYNARR_PUSH *)

(** Storing [v] in the slot after the last element and counting it. *)
Lemma append_slot_spec (a : dynarr) (v : list byte) :
  inv a -> fits a -> offs a + size a < capa a -> value_of a v ->
  set_size (slot_set a (Int.add (offs a) (size a)) v) (Int.add (size a) 1) =
  set_size (slot_set a (offs a + size a) v) (size a + 1) /\
  contents (set_size (slot_set a (offs a + size a) v) (size a + 1)) =
  contents a ++ [v].
Proof.
  intros Hi Hf Hroom Hv. assert (Hi' := Hi). destruct Hi' as (Ho & Hs & Hc).
  split.
  - rewrite (add_small (offs a) (size a)) by (apply (index_range a); [assumption | lia]).
    rewrite (add_small (size a) 1) by (apply (index_range a); [assumption | lia]).
    reflexivity.
  - apply contents_intro.
    + rewrite length_app, contents_length. fields. cbn [length]. lia.
    + fields. intros i Hr. unfold elt, DARR_EPTR. fields. unfold slot.
      rewrite (add_small (offs a) (Z.of_nat i)) by (apply (index_range a); [assumption | lia]).
      rewrite (mul_small (elem a) (offs a + Z.of_nat i))
        by (apply bytes_range; [assumption | lia]).
      rewrite load_store_slots by (destruct Hf; assumption).
      destruct (Z.eqb_spec (offs a + size a) (offs a + Z.of_nat i)) as [He|Hne].
      * rewrite app_nth2 by (rewrite contents_length; lia).
        rewrite contents_length.
        replace (i - Z.to_nat (size a))%nat with 0%nat by lia. reflexivity.
      * rewrite app_nth1 by (rewrite contents_length; lia).
        rewrite contents_nth by lia.
        unfold elt. now rewrite EPTR_eq by (try assumption; lia).
Qed.

Lemma push_eq (realloc : Z -> bool) (a : dynarr) (v : list byte) :
  DYNARR_PUSH realloc a v =
  if fst (dynarrGrow realloc a) =? 0 then
    (size (snd (dynarrGrow realloc a)),
     set_size (slot_set (snd (dynarrGrow realloc a))
                 (Int.add (offs (snd (dynarrGrow realloc a)))
                          (size (snd (dynarrGrow realloc a)))) v)
              (Int.add (size (snd (dynarrGrow realloc a))) 1))
  else (-1, snd (dynarrGrow realloc a)).
Proof.
  unfold DYNARR_PUSH, push_expr. destruct (dynarrGrow realloc a) as [r a1]. fields.
  now destruct (r =? 0).
Qed.

(** What [DYNARR_PUSH] does on a container that reserves at least one slot. *)
Lemma push_result (realloc : Z -> bool) (a : dynarr) (v : list byte) :
  inv a -> fits a -> grow_ok a -> value_of a v -> 0 < capa a ->
  (fst (DYNARR_PUSH realloc a v) = size a /\
   inv (snd (DYNARR_PUSH realloc a v)) /\ fits (snd (DYNARR_PUSH realloc a v)) /\
   elem (snd (DYNARR_PUSH realloc a v)) = elem a /\
   size (snd (DYNARR_PUSH realloc a v)) = size a + 1 /\
   contents (snd (DYNARR_PUSH realloc a v)) = contents a ++ [v])
  \/
  (DYNARR_PUSH realloc a v = (-1, a) /\
   offs a + size a = capa a /\ offs a < size a /\
   realloc (request (Int.mul (Int.mul (elem a) (capa a)) 2)) = false).
Proof.
  intros Hi Hf Hg Hv Hpos. rewrite push_eq.
  destruct (grow_result realloc a Hi Hf Hg) as
    [(Hr & Hi1 & Hf1 & He1 & Hs1 & Hc1 & Hcap1 & Hroom) | (Hr & Hfail)].
  - left. rewrite Hr. cbn [Z.eqb fst snd].
    set (a1 := snd (dynarrGrow realloc a)) in *.
    assert (Hv1 : value_of a1 v) by (unfold value_of in *; congruence).
    destruct (append_slot_spec a1 v Hi1 Hf1 (Hroom Hpos) Hv1) as [E1 E2].
    rewrite E1, E2, Hc1. split; [assumption|].
    unfold inv, fits in *. fields. specialize (Hroom Hpos).
    repeat split; try lia.
  - right. rewrite Hr. cbn [Z.eqb fst snd]. split; [reflexivity | assumption].
Qed.

(** ** The removing macros *)

Lemma valid_iff (a : dynarr) (i : Z) : DYNARR_VALID a i = true <-> 0 <= i < size a.
Proof.
  unfold DYNARR_VALID. rewrite andb_true_iff, Z.geb_leb, Z.leb_le, Z.ltb_lt. tauto.
Qed.

Lemma pop_eq (a : dynarr) :
  inv a -> fits a -> 0 < size a ->
  DYNARR_POP a =
  Some (slot_get a (offs a + (size a - 1)), set_size a (size a - 1)).
Proof.
  intros (Ho & Hs & Hc) Hf Hpos. unfold DYNARR_POP, DARR_ASSERT.
  replace (size a =? 0) with false by (symmetry; apply Z.eqb_neq; lia).
  cbn [negb]. fields.
  rewrite (sub_small (size a) 1) by (apply (index_range a); [assumption | lia]).
  rewrite (add_small (offs a) (size a - 1)) by (apply (index_range a); [assumption | lia]).
  reflexivity.
Qed.

Lemma dequeue_eq (a : dynarr) :
  inv a -> fits a -> 0 < size a ->
  DYNARR_DEQUEUE a =
  Some (slot_get a (offs a), set_offs (set_size a (size a - 1)) (offs a + 1)).
Proof.
  intros (Ho & Hs & Hc) Hf Hpos. unfold DYNARR_DEQUEUE, DARR_ASSERT.
  replace (size a =? 0) with false by (symmetry; apply Z.eqb_neq; lia).
  cbn [negb]. fields.
  rewrite (sub_small (size a) 1) by (apply (index_range a); [assumption | lia]).
  rewrite (add_small (offs a) 1) by (apply (index_range a); [assumption | lia]).
  reflexivity.
Qed.

Lemma remove_eq (a : dynarr) (i : Z) :
  inv a -> fits a -> 0 <= i < size a ->
  DYNARR_REMOVE a i =
  Some (set_data (set_size a (size a - 1))
          (memmove (data a) (elem a * (offs a + i)) (elem a * (offs a + i + 1))
                   (elem a * (size a - 1 - i)))).
Proof.
  intros (Ho & Hs & Hc) Hf Hr. unfold DYNARR_REMOVE, DARR_ASSERT.
  rewrite (proj2 (valid_iff a i) Hr). unfold slot. fields.
  rewrite (sub_small (size a) 1) by (apply (index_range a); [assumption | lia]).
  rewrite (add_small (offs a) i) by (apply (index_range a); [assumption | lia]).
  rewrite (add_small (offs a + i) 1) by (apply (index_range a); [assumption | lia]).
  rewrite (sub_small (size a - 1) i) by (apply (index_range a); [assumption | lia]).
  rewrite (mul_small (elem a) (size a - 1 - i)) by (apply bytes_range; [assumption | lia]).
  reflexivity.
Qed.

Lemma ditch_eq (a : dynarr) (i : Z) :
  inv a -> fits a -> 0 <= i < size a ->
  DYNARR_DITCH a i =
  Some (slot_set (set_size a (size a - 1)) (offs a + i)
          (slot_get a (offs a + (size a - 1)))).
Proof.
  intros Hi Hf Hr. unfold DYNARR_DITCH, DARR_ASSERT.
  rewrite (proj2 (valid_iff a i) Hr), pop_eq by (try assumption; lia).
  destruct Hi as (Ho & Hs & Hc). fields.
  rewrite (add_small (offs a) i) by (apply (index_range a); [assumption | lia]).
  reflexivity.
Qed.

(** Elements after [DYNARR_REMOVE]: those before [i] stay, the others move
    down by one. *)
Lemma remove_elt (a a' : dynarr) (i k : Z) :
  inv a -> fits a -> 0 <= i < size a ->
  DYNARR_REMOVE a i = Some a' -> 0 <= k < size a - 1 ->
  elt a' k = if k <? i then elt a k else elt a (k + 1).
Proof.
  intros Hi Hf Hr Hrm Hk. rewrite remove_eq in Hrm by assumption.
  injection Hrm as <-. destruct Hi as (Ho & Hs & Hc).
  unfold elt, DARR_EPTR. fields.
  rewrite (add_small (offs a) k) by (apply (index_range a); [assumption | lia]).
  rewrite (mul_small (elem a) (offs a + k)) by (apply bytes_range; [assumption | lia]).
  rewrite load_memmove_slots by (destruct Hf; lia).
  destruct (Z.ltb_spec k i) as [Hlt|Hge].
  - replace ((offs a + i <=? offs a + k) && (offs a + k <? offs a + i + (size a - 1 - i)))
      with false by (symmetry; apply andb_false_iff; left; apply Z.leb_gt; lia).
    reflexivity.
  - replace ((offs a + i <=? offs a + k) && (offs a + k <? offs a + i + (size a - 1 - i)))
      with true
      by (symmetry; apply andb_true_iff; split; [apply Z.leb_le | apply Z.ltb_lt]; lia).
    rewrite (add_small (offs a) (k + 1)) by (apply (index_range a); [assumption | lia]).
    rewrite (mul_small (elem a) (offs a + (k + 1)))
      by (apply bytes_range; [assumption | lia]).
    f_equal. f_equal. lia.
Qed.

Lemma remove_fields (a a' : dynarr) (i : Z) :
  inv a -> fits a -> 0 <= i < size a -> DYNARR_REMOVE a i = Some a' ->
  size a' = size a - 1 /\ offs a' = offs a /\ capa a' = capa a /\ elem a' = elem a.
Proof.
  intros Hi Hf Hr Hrm. rewrite remove_eq in Hrm by assumption.
  injection Hrm as <-. fields. auto.
Qed.

(** ** DYNARR_INSERT and DYNARR_SHOVE *)

Lemma insert_eq (realloc : Z -> bool) (a : dynarr) (i : Z) (v : list byte) :
  0 <= i < size a ->
  DYNARR_INSERT realloc a i v =
  if fst (dynarrGrow realloc a) =? 0
  then Some (i, insert_tail (snd (dynarrGrow realloc a)) i v)
  else Some (-1, snd (dynarrGrow realloc a)).
Proof.
  intros Hr. unfold DYNARR_INSERT, DARR_ASSERT. rewrite (proj2 (valid_iff a i) Hr).
  destruct (dynarrGrow realloc a) as [r a1]. fields. now destruct (r =? 0).
Qed.

Lemma grow_size (realloc : Z -> bool) (a : dynarr) :
  size (snd (dynarrGrow realloc a)) = size a.
Proof.
  unfold dynarrGrow. destruct (_ =? _); [|reflexivity].
  destruct (_ >=? _); [reflexivity|]. now destruct (realloc _).
Qed.

Lemma shove_eq (realloc : Z -> bool) (a : dynarr) (i : Z) (v : list byte) :
  0 <= i < size a ->
  DYNARR_SHOVE realloc a i v =
  if fst (dynarrGrow realloc a) =? 0
  then Some (i, shove_tail (snd (dynarrGrow realloc a)) i v)
  else Some (-1, snd (dynarrGrow realloc a)).
Proof.
  intros Hr. unfold DYNARR_SHOVE, push_expr, DARR_ASSERT.
  rewrite (proj2 (valid_iff a i) Hr).
  pose proof (grow_size realloc a) as Hs.
  destruct (dynarrGrow realloc a) as [r a1]. fields.
  destruct (r =? 0); cbn [negb]; fields.
  - replace (size a1 =? -1) with false by (symmetry; apply Z.eqb_neq; lia).
    reflexivity.
  - reflexivity.
Qed.

Lemma insert_tail_eq (a : dynarr) (i : Z) (v : list byte) :
  inv a -> fits a -> offs a + size a < capa a -> 0 <= i < size a ->
  insert_tail a i v =
  set_size
    (set_data a
       (store (memmove (data a) (elem a * (offs a + i + 1)) (elem a * (offs a + i))
                       (elem a * (size a - i)))
              (elem a * (offs a + i)) v))
    (size a + 1).
Proof.
  intros (Ho & Hs & Hc) Hf Hroom Hr. unfold insert_tail, slot. fields. unfold slot. fields.
  rewrite (add_small (offs a) i) by (apply (index_range a); [assumption | lia]).
  rewrite (add_small (offs a + i) 1) by (apply (index_range a); [assumption | lia]).
  rewrite (sub_small (size a) i) by (apply (index_range a); [assumption | lia]).
  rewrite (mul_small (elem a) (size a - i)) by (apply bytes_range; [assumption | lia]).
  rewrite (add_small (size a) 1) by (apply (index_range a); [assumption | lia]).
  reflexivity.
Qed.

(** Elements after the insertion: those before [i] stay, [v] is at [i], the
    others move up by one. *)
Lemma insert_tail_elt (a : dynarr) (i k : Z) (v : list byte) :
  inv a -> fits a -> offs a + size a < capa a -> 0 <= i < size a ->
  value_of a v -> 0 <= k < size a + 1 ->
  elt (insert_tail a i v) k =
  if k <? i then elt a k else if k =? i then v else elt a (k - 1).
Proof.
  intros Hi Hf Hroom Hr Hv Hk. rewrite insert_tail_eq by assumption.
  destruct Hi as (Ho & Hs & Hc).
  unfold elt, DARR_EPTR. fields.
  rewrite (add_small (offs a) k) by (apply (index_range a); [assumption | lia]).
  rewrite (mul_small (elem a) (offs a + k)) by (apply bytes_range; [assumption | lia]).
  rewrite load_store_slots by (destruct Hf; assumption).
  destruct (Z.eqb_spec (offs a + i) (offs a + k)) as [He|Hne].
  - replace (k <? i) with false by (symmetry; apply Z.ltb_ge; lia).
    now replace (k =? i) with true by (symmetry; apply Z.eqb_eq; lia).
  - replace (k =? i) with false by (symmetry; apply Z.eqb_neq; lia).
    rewrite load_memmove_slots by (destruct Hf; lia).
    destruct (Z.ltb_spec k i) as [Hlt|Hge].
    + replace ((offs a + i + 1 <=? offs a + k) &&
               (offs a + k <? offs a + i + 1 + (size a - i)))
        with false by (symmetry; apply andb_false_iff; left; apply Z.leb_gt; lia).
      reflexivity.
    + replace ((offs a + i + 1 <=? offs a + k) &&
               (offs a + k <? offs a + i + 1 + (size a - i)))
        with true
        by (symmetry; apply andb_true_iff; split; [apply Z.leb_le | apply Z.ltb_lt]; lia).
      rewrite (add_small (offs a) (k - 1)) by (apply (index_range a); [assumption | lia]).
      rewrite (mul_small (elem a) (offs a + (k - 1)))
        by (apply bytes_range; [assumption | lia]).
      f_equal. f_equal. lia.
Qed.

Lemma insert_tail_fields (a : dynarr) (i : Z) (v : list byte) :
  inv a -> fits a -> offs a + size a < capa a -> 0 <= i < size a ->
  size (insert_tail a i v) = size a + 1 /\ offs (insert_tail a i v) = offs a /\
  capa (insert_tail a i v) = capa a /\ elem (insert_tail a i v) = elem a.
Proof.
  intros Hi Hf Hroom Hr. rewrite insert_tail_eq by assumption. fields. auto.
Qed.

Lemma shove_tail_fields (a : dynarr) (i : Z) (v : list byte) :
  inv a -> fits a -> offs a + size a < capa a ->
  size (shove_tail a i v) = size a + 1 /\ offs (shove_tail a i v) = offs a /\
  capa (shove_tail a i v) = capa a /\ elem (shove_tail a i v) = elem a.
Proof.
  intros (Ho & Hs & Hc) Hf Hroom. unfold shove_tail. fields.
  rewrite (add_small (size a) 1) by (apply (index_range a); [assumption | lia]).
  auto.
Qed.

(** C6. When [DYNARR_INSERT(a, i, v)] succeeds on a valid index, an
    immediately following [DYNARR_REMOVE(a, i)] restores the original logical
    sequence: same length, same element at every index. *)
Theorem insert_remove_roundtrip (realloc : Z -> bool) (a : dynarr) (i : Z)
        (v : list byte) (r : Z) (a1 : dynarr) :
  inv a -> fits a -> grow_ok a -> value_of a v -> 0 <= i < size a ->
  DYNARR_INSERT realloc a i v = Some (r, a1) -> r <> -1 ->
  exists a2,
    DYNARR_REMOVE a1 i = Some a2 /\
    size a2 = size a /\ contents a2 = contents a.
Proof.
  intros Hi Hf Hg Hv Hr Hins Hok.
  assert (Hi' := Hi). destruct Hi' as (Ho & Hs & Hc).
  rewrite insert_eq in Hins by assumption.
  destruct (grow_result realloc a Hi Hf Hg) as
    [(Hr0 & Hi1 & Hf1 & He1 & Hs1 & Hc1 & Hcap1 & Hroom) | (Hfail & _)].
  2:{ rewrite Hfail in Hins. cbn [fst snd Z.eqb] in Hins. congruence. }
  rewrite Hr0 in Hins. cbn [Z.eqb] in Hins.
  set (g := snd (dynarrGrow realloc a)) in *.
  assert (Hroom' : offs g + size g < capa g) by (apply Hroom; lia).
  assert (Hrg : 0 <= i < size g) by lia.
  assert (Hvg : value_of g v) by (unfold value_of in *; congruence).
  injection Hins as <- <-.
  destruct (insert_tail_fields g i v Hi1 Hf1 Hroom' Hrg) as (Fs & Fo & Fc & Fe).
  set (a1 := insert_tail g i v) in *.
  assert (Hia1 : inv a1) by (unfold inv in *; rewrite Fs, Fo, Fc; lia).
  assert (Hfa1 : fits a1) by (unfold fits in *; now rewrite Fe, Fc).
  assert (Hr1 : 0 <= i < size a1) by lia.
  destruct (DYNARR_REMOVE a1 i) as [a2|] eqn:Hrm.
  2:{ rewrite remove_eq in Hrm by assumption. discriminate. }
  destruct (remove_fields a1 a2 i Hia1 Hfa1 Hr1 Hrm) as (Rs & Ro & Rc & Re).
  exists a2. split; [reflexivity|]. split; [lia|].
  rewrite <- Hc1. apply contents_ext; [lia|].
  intros k Hk.
  rewrite (remove_elt a1 a2 i k Hia1 Hfa1 Hr1 Hrm) by lia.
  unfold a1. destruct (Z.ltb_spec k i) as [Hlt|Hge].
  - rewrite insert_tail_elt by (try assumption; lia).
    now replace (k <? i) with true by (symmetry; apply Z.ltb_lt; lia).
  - rewrite insert_tail_elt by (try assumption; lia).
    replace (k + 1 <? i) with false by (symmetry; apply Z.ltb_ge; lia).
    replace (k + 1 =? i) with false by (symmetry; apply Z.eqb_neq; lia).
    f_equal. lia.
Qed.

Lemma insert_remove_roundtrip_witness :
  let a := snd (DYNARR_PUSH alloc_ok (snd (DYNARR_PUSH alloc_ok fresh4 (word x01)))
                            (word x02)) in
  let a1 := insert_tail (snd (dynarrGrow alloc_ok a)) 1 (word x09) in
  DYNARR_INSERT alloc_ok a 1 (word x09) = Some (1, a1) /\
  exists a2,
    DYNARR_REMOVE a1 1 = Some a2 /\ size a2 = 2 /\
    contents a2 = [word x01; word x02].
Proof.
  intros a a1.
  assert (Hi : inv a) by (vm_compute; repeat split; intro; discriminate).
  assert (Hf : fits a) by (vm_compute; repeat split; intro; discriminate).
  assert (Hg : grow_ok a) by (intros _ _; vm_compute; intro; discriminate).
  assert (Hv : value_of a (word x09)) by (vm_compute; reflexivity).
  assert (Hr : 0 <= 1 < size a) by (vm_compute; split; [intro; discriminate | reflexivity]).
  assert (E : DYNARR_INSERT alloc_ok a 1 (word x09) = Some (1, a1)).
  { rewrite insert_eq by exact Hr.
    assert (H0 : fst (dynarrGrow alloc_ok a) = 0) by (vm_compute; reflexivity).
    rewrite H0. reflexivity. }
  split; [exact E|].
  assert (Hne : 1 <> -1) by lia.
  destruct (insert_remove_roundtrip alloc_ok a 1 (word x09) 1 a1 Hi Hf Hg Hv Hr E Hne)
    as (a2 & Hrm & Hs & Hc).
  exists a2. split; [exact Hrm|]. split.
  - rewrite Hs. vm_compute. reflexivity.
  - rewrite Hc. vm_compute. reflexivity.
Defined.

(** ** Allocation failure *)

Lemma grow_failure_eq (realloc : Z -> bool) (a : dynarr) :
  inv a -> fits a -> offs a + size a = capa a -> offs a < size a ->
  realloc (request (Int.mul (Int.mul (elem a) (capa a)) 2)) = false ->
  dynarrGrow realloc a = (-1, a).
Proof.
  intros Hi Hf Hfull Hlt Hre. unfold dynarrGrow.
  rewrite grow_full_test, Hfull, Z.eqb_refl by assumption.
  replace (offs a >=? size a) with false
    by (symmetry; rewrite Z.geb_leb; apply Z.leb_gt; lia).
  now rewrite Hre.
Qed.




(** ** The offset of an empty container *)

Lemma single_reachable : reachable single.
Proof.
  apply (reach_push alloc_ok fresh4 (word x01) (fst (DYNARR_PUSH alloc_ok fresh4 (word x01)))).
  - exact fresh4_reachable.
  - reflexivity.
  - unfold single. now destruct (DYNARR_PUSH alloc_ok fresh4 (word x01)).
Qed.

(** C2 fails as stated: [DYNARR_DEQUEUE] on the reachable one-element
    container [single] leaves it empty with offset 1 (and a [DYNARR_RESIZE]
    to 0 of that empty container changes nothing), and [DYNARR_POP] on
    [queue_tail] leaves it empty with its offset still 1. *)
Lemma dequeue_leaves_offset :
  reachable single /\ reachable queue_tail /\
  match DYNARR_DEQUEUE single with
  | Some (_, a') =>
      size a' = 0 /\ offs a' = 1 /\ offs a' <> 0 /\
      size (snd (DYNARR_RESIZE alloc_ok a' 0)) = 0 /\
      offs (snd (DYNARR_RESIZE alloc_ok a' 0)) = 1
  | None => False
  end /\
  match DYNARR_POP queue_tail with
  | Some (_, a') => size a' = 0 /\ offs a' = 1 /\ offs a' <> 0
  | None => False
  end.
Proof.
  split; [exact single_reachable|]. split; [exact queue_tail_reachable|].
  vm_compute. repeat split; intro; discriminate.
Qed.

Lemma assert_some {A : Type} (e : bool) (k : option A) (x : A) :
  DARR_ASSERT e k = Some x -> e = true /\ k = Some x.
Proof. unfold DARR_ASSERT. destruct e; [auto | discriminate]. Qed.

Lemma nonempty_of_assert (a : dynarr) :
  inv a -> negb (size a =? 0) = true -> 0 < size a.
Proof.
  intros (_ & Hs & _) H. apply negb_true_iff, Z.eqb_neq in H. lia.
Qed.

Lemma push_size (realloc : Z -> bool) (a : dynarr) (v : list byte) :
  inv a -> fits a -> grow_ok a ->
  0 < size (snd (DYNARR_PUSH realloc a v)).
Proof.
  intros Hi Hf Hg. rewrite push_eq.
  assert (Hi' := Hi). destruct Hi' as (Ho & Hs & Hc).
  destruct (grow_result realloc a Hi Hf Hg) as
    [(Hr & Hi1 & Hf1 & He1 & Hs1 & Hc1 & Hcap1 & Hroom) | (Hr & Hfull & Hlt & _)].
  - rewrite Hr. cbn [Z.eqb]. fields. rewrite Hs1.
    destruct (Z.eq_dec (capa a) 0) as [H0|Hpos].
    + replace (size a) with 0 by lia.
      rewrite (add_small 0 1) by (unfold Int.in_range, Int.INT_MIN, Int.INT_MAX; lia). lia.
    + assert (Hroom' := Hroom ltac:(lia)). rewrite Hs1 in Hroom'.
      unfold inv in Hi1.
      rewrite (add_small (size a) 1)
        by (apply (index_range (snd (dynarrGrow realloc a))); [assumption | lia]).
      lia.
  - rewrite Hr. cbn [Z.eqb fst snd]. lia.
Qed.

Lemma tail_size (realloc : Z -> bool) (a : dynarr) (i : Z) (v : list byte) :
  inv a -> fits a -> grow_ok a -> 0 <= i < size a ->
  0 < size (if fst (dynarrGrow realloc a) =? 0
            then insert_tail (snd (dynarrGrow realloc a)) i v
            else snd (dynarrGrow realloc a)) /\
  0 < size (if fst (dynarrGrow realloc a) =? 0
            then shove_tail (snd (dynarrGrow realloc a)) i v
            else snd (dynarrGrow realloc a)).
Proof.
  intros Hi Hf Hg Hr. assert (Hi' := Hi). destruct Hi' as (Ho & Hs & Hc).
  destruct (grow_result realloc a Hi Hf Hg) as
    [(Hr0 & Hi1 & Hf1 & He1 & Hs1 & Hc1 & Hcap1 & Hroom) | (Hfail & _)].
  - rewrite Hr0. cbn [Z.eqb].
    assert (Hroom' := Hroom ltac:(lia)).
    destruct (insert_tail_fields (snd (dynarrGrow realloc a)) i v Hi1 Hf1 Hroom')
      as (-> & _); [lia|].
    destruct (shove_tail_fields (snd (dynarrGrow realloc a)) i v Hi1 Hf1 Hroom')
      as (-> & _).
    lia.
  - rewrite Hfail. cbn [Z.eqb fst snd]. lia.
Qed.

(** C2, as the code has it.  [DYNARR_CLEAR] and [DYNARR_CAPACITY] always
    leave offset 0; a [DYNARR_RESIZE] to a size other than the current one
    leaves offset 0 whenever it leaves the container empty; [DYNARR_PUSH],
    [DYNARR_INSERT] and [DYNARR_SHOVE] never leave the container empty.  The
    removing macros do not reset the offset: [DYNARR_POP], [DYNARR_REMOVE]
    and [DYNARR_DITCH] keep it and [DYNARR_DEQUEUE] adds one to it, also when
    the last element goes. *)
Theorem offset_when_empty (a : dynarr) :
  inv a -> fits a -> grow_ok a ->
  (size (DYNARR_CLEAR a) = 0 /\ offs (DYNARR_CLEAR a) = 0) /\
  (forall r c, offs (snd (DYNARR_CAPACITY r a c)) = 0) /\
  (forall r s, s <> size a -> size (snd (DYNARR_RESIZE r a s)) = 0 ->
               offs (snd (DYNARR_RESIZE r a s)) = 0) /\
  (forall r v, size (snd (DYNARR_PUSH r a v)) <> 0) /\
  (forall r i v r' a', DYNARR_INSERT r a i v = Some (r', a') -> size a' <> 0) /\
  (forall r i v r' a', DYNARR_SHOVE r a i v = Some (r', a') -> size a' <> 0) /\
  (forall v a', DYNARR_POP a = Some (v, a') ->
                size a' = size a - 1 /\ offs a' = offs a) /\
  (forall v a', DYNARR_DEQUEUE a = Some (v, a') ->
                size a' = size a - 1 /\ offs a' = offs a + 1) /\
  (forall i a', DYNARR_REMOVE a i = Some a' ->
                size a' = size a - 1 /\ offs a' = offs a) /\
  (forall i a', DYNARR_DITCH a i = Some a' ->
                size a' = size a - 1 /\ offs a' = offs a).
Proof.
  intros Hi Hf Hg. assert (Hi' := Hi). destruct Hi' as (Ho & Hs & Hc).
  destruct (compact_fields a) as (Hco & Hcs & Hcc & Hce).
  split; [split; reflexivity|].
  split.
  { intros r c. unfold DYNARR_CAPACITY. rewrite capacity_eq.
    destruct (_ =? _); [exact Hco|]. destruct (r _); fields; exact Hco. }
  split.
  { intros r s Hne. unfold DYNARR_RESIZE.
    destruct (Z_lt_le_dec s (size a)) as [Hlt|Hge].
    - rewrite resize_shrink_eq by assumption.
      destruct (Z.ltb_spec 0 s); fields; [lia | reflexivity].
    - unfold dynarrResize.
      replace (s <? size a) with false by (symmetry; apply Z.ltb_ge; lia).
      replace (s >? size a) with true by (symmetry; apply Z.gtb_lt; lia).
      unfold resize_fill.
      destruct (_ >? capa a); [|fields; lia].
      destruct (s >? capa (compact a)); [|fields; lia].
      destruct (r _); fields; [lia | intros _; exact Hco]. }
  split.
  { intros r v. pose proof (push_size r a v Hi Hf Hg). lia. }
  split.
  { intros r i v r' a' H. assert (H' := H). unfold DYNARR_INSERT in H.
    apply assert_some in H. destruct H as [Hv _].
    apply valid_iff in Hv.
    rewrite insert_eq in H' by assumption.
    destruct (tail_size r a i v Hi Hf Hg Hv) as [T _].
    destruct (fst (dynarrGrow r a) =? 0); injection H' as _ <-; lia. }
  split.
  { intros r i v r' a' H. assert (H' := H). unfold DYNARR_SHOVE in H.
    apply assert_some in H. destruct H as [Hv _].
    apply valid_iff in Hv.
    rewrite shove_eq in H' by assumption.
    destruct (tail_size r a i v Hi Hf Hg Hv) as [_ T].
    destruct (fst (dynarrGrow r a) =? 0); injection H' as _ <-; lia. }
  split.
  { intros v a' H. assert (H' := H). unfold DYNARR_POP in H.
    apply assert_some in H. destruct H as [Hne _].
    rewrite pop_eq in H' by (try assumption; now apply nonempty_of_assert).
    injection H' as _ <-. fields. auto. }
  split.
  { intros v a' H. assert (H' := H). unfold DYNARR_DEQUEUE in H.
    apply assert_some in H. destruct H as [Hne _].
    rewrite dequeue_eq in H' by (try assumption; now apply nonempty_of_assert).
    injection H' as _ <-. fields. auto. }
  split.
  { intros i a' H. assert (H' := H). unfold DYNARR_REMOVE in H.
    apply assert_some in H. destruct H as [Hv _]. apply valid_iff in Hv.
    destruct (remove_fields a a' i Hi Hf Hv H') as (? & ? & _). auto. }
  { intros i a' H. assert (H' := H). unfold DYNARR_DITCH in H.
    apply assert_some in H. destruct H as [Hv _]. apply valid_iff in Hv.
    rewrite ditch_eq in H' by assumption.
    injection H' as <-. fields. auto. }
Qed.

Lemma offset_when_empty_witness :
  offs (snd (DYNARR_CAPACITY alloc_ok queue_tail 7)) = 0 /\
  size (snd (DYNARR_PUSH alloc_ok queue_tail (word x03))) <> 0 /\
  (forall v a', DYNARR_POP queue_tail = Some (v, a') ->
                size a' = size queue_tail - 1 /\ offs a' = offs queue_tail).
Proof.
  assert (Hi : inv queue_tail) by (vm_compute; repeat split; intro; discriminate).
  assert (Hf : fits queue_tail) by (vm_compute; repeat split; intro; discriminate).
  assert (Hg : grow_ok queue_tail) by (intros _ _; vm_compute; intro; discriminate).
  destruct (offset_when_empty queue_tail Hi Hf Hg) as
    (_ & Hcap & _ & Hpush & _ & _ & Hpop & _).
  split; [apply Hcap|]. split; [apply Hpush | exact Hpop].
Defined.

(** ** The invariant, where at least one slot is reserved *)

(** A successful [dynarrGrow] leaves a free slot after the last element,
    provided the container reserves at least one slot. *)
Lemma grow_room (realloc : Z -> bool) (a : dynarr) :
  inv a -> fits a -> grow_ok a -> 0 < capa a ->
  fst (dynarrGrow realloc a) = 0 ->
  offs (snd (dynarrGrow realloc a)) + size (snd (dynarrGrow realloc a))
  < capa (snd (dynarrGrow realloc a)).
Proof.
  intros Hi Hf Hg Hpos Hr.
  destruct (grow_result realloc a Hi Hf Hg) as
    [(_ & _ & _ & _ & _ & _ & _ & Hroom) | (Hfail & _)].
  - now apply Hroom.
  - rewrite Hfail in Hr. discriminate.
Qed.

Lemma tail_inv (realloc : Z -> bool) (a : dynarr) (i : Z) (v : list byte) :
  inv a -> fits a -> grow_ok a -> 0 <= i < size a ->
  inv (if fst (dynarrGrow realloc a) =? 0
       then insert_tail (snd (dynarrGrow realloc a)) i v
       else snd (dynarrGrow realloc a)) /\
  inv (if fst (dynarrGrow realloc a) =? 0
       then shove_tail (snd (dynarrGrow realloc a)) i v
       else snd (dynarrGrow realloc a)).
Proof.
  intros Hi Hf Hg Hr. assert (Hi' := Hi). destruct Hi' as (Ho & Hs & Hc).
  destruct (grow_result realloc a Hi Hf Hg) as
    [(Hr0 & Hi1 & Hf1 & He1 & Hs1 & Hc1 & Hcap1 & Hroom) | (Hfail & _)].
  - rewrite Hr0. cbn [Z.eqb].
    assert (Hroom' := Hroom ltac:(lia)).
    destruct (insert_tail_fields (snd (dynarrGrow realloc a)) i v Hi1 Hf1 Hroom')
      as (Is & Io & Ic & _); [lia|].
    destruct (shove_tail_fields (snd (dynarrGrow realloc a)) i v Hi1 Hf1 Hroom')
      as (Ss & So & Sc & _).
    unfold inv in *. rewrite Is, Io, Ic, Ss, So, Sc. lia.
  - rewrite Hfail. cbn [Z.eqb fst snd]. split; assumption.
Qed.

Lemma resize_inv (realloc : Z -> bool) (a : dynarr) (s : Z) :
  inv a -> fits a -> resize_ok a s -> inv (snd (dynarrResize realloc a s)).
Proof.
  intros Hi Hf Hok. assert (Hi' := Hi). destruct Hi' as (Ho & Hs & Hc).
  destruct (compact_fields a) as (Hco & Hcs & Hcc & Hce).
  destruct (Z.lt_total s (size a)) as [Hlt | [Heq | Hgt]].
  - rewrite resize_shrink_eq by assumption.
    destruct (Z.ltb_spec 0 s); unfold inv; fields; lia.
  - subst s. unfold dynarrResize. rewrite Z.ltb_irrefl.
    replace (size a >? size a) with false by (symmetry; rewrite Z.gtb_ltb; apply Z.ltb_irrefl).
    exact Hi.
  - rewrite (resize_grow_eq realloc a s) by assumption.
    destruct (Z.leb_spec (offs a + s) (capa a)) as [Hroom|Hover].
    + destruct (resize_fill_spec a s Hi Hf Hgt Hroom) as (_ & R2 & R3 & R4 & _).
      unfold inv. rewrite R2, R3, R4. lia.
    + destruct (Z.leb_spec s (capa a)) as [Hin|Hout].
      * destruct (resize_fill_spec (compact a) s (compact_inv a Hi) (compact_fits a Hf))
          as (_ & R2 & R3 & R4 & _); [lia | lia |].
        unfold inv. rewrite R2, R3, R4. lia.
      * destruct (realloc _); [|now apply compact_inv].
        set (b := set_capa (compact a) s).
        assert (Hib : inv b) by (unfold inv, b; fields; rewrite Hco, Hcs; lia).
        assert (Hfb : fits b)
          by (unfold fits, b; fields; rewrite Hce; destruct Hf, Hok; split; assumption).
        destruct (resize_fill_spec b s Hib Hfb) as (_ & R2 & R3 & R4 & _).
        -- unfold b. fields. lia.
        -- unfold b. fields. lia.
        -- unfold inv. rewrite R2, R3, R4. unfold b. fields. lia.
Qed.

Lemma capacity_inv (realloc : Z -> bool) (a : dynarr) (c : Z) :
  inv a -> inv (snd (dynarrCapacity realloc a c)).
Proof.
  intros Hi. assert (Hi' := Hi). destruct Hi' as (Ho & Hs & Hc).
  destruct (compact_fields a) as (Hco & Hcs & Hcc & Hce).
  rewrite capacity_eq.
  destruct (_ =? _); [now apply compact_inv|].
  destruct (realloc _); [|now apply compact_inv].
  unfold inv. fields. rewrite Hco, Hcs. lia.
Qed.

(** Every operation keeps the invariant, [DYNARR_PUSH] as long as the
    container reserves at least one slot. *)
Lemma inv_preserved (a : dynarr) :
  inv a -> fits a -> grow_ok a ->
  inv (DYNARR_CLEAR a) /\
  (forall r v, value_of a v -> 0 < capa a -> inv (snd (DYNARR_PUSH r a v))) /\
  (forall v a', DYNARR_POP a = Some (v, a') -> inv a') /\
  (forall v a', DYNARR_DEQUEUE a = Some (v, a') -> inv a') /\
  (forall r i v r' a', DYNARR_INSERT r a i v = Some (r', a') -> inv a') /\
  (forall r i v r' a', DYNARR_SHOVE r a i v = Some (r', a') -> inv a') /\
  (forall i a', DYNARR_REMOVE a i = Some a' -> inv a') /\
  (forall i a', DYNARR_DITCH a i = Some a' -> inv a') /\
  (forall r s, resize_ok a s -> inv (snd (DYNARR_RESIZE r a s))) /\
  (forall r c, inv (snd (DYNARR_CAPACITY r a c))).
Proof.
  intros Hi Hf Hg. assert (Hi' := Hi). destruct Hi' as (Ho & Hs & Hc).
  split; [unfold inv, DYNARR_CLEAR; fields; lia|].
  split.
  { intros r v Hv Hpos.
    destruct (push_result r a v Hi Hf Hg Hv Hpos) as [(_ & H & _) | (H & _)].
    - exact H.
    - now rewrite H. }
  split.
  { intros v a' H. assert (H' := H). unfold DYNARR_POP in H.
    apply assert_some in H. destruct H as [Hne _].
    pose proof (nonempty_of_assert a Hi Hne).
    rewrite pop_eq in H' by assumption.
    injection H' as _ <-. unfold inv. fields. lia. }
  split.
  { intros v a' H. assert (H' := H). unfold DYNARR_DEQUEUE in H.
    apply assert_some in H. destruct H as [Hne _].
    pose proof (nonempty_of_assert a Hi Hne).
    rewrite dequeue_eq in H' by assumption.
    injection H' as _ <-. unfold inv. fields. lia. }
  split.
  { intros r i v r' a' H. assert (H' := H). unfold DYNARR_INSERT in H.
    apply assert_some in H. destruct H as [Hv _]. apply valid_iff in Hv.
    rewrite insert_eq in H' by assumption.
    destruct (tail_inv r a i v Hi Hf Hg Hv) as [T _].
    destruct (fst (dynarrGrow r a) =? 0); injection H' as _ <-; exact T. }
  split.
  { intros r i v r' a' H. assert (H' := H). unfold DYNARR_SHOVE in H.
    apply assert_some in H. destruct H as [Hv _]. apply valid_iff in Hv.
    rewrite shove_eq in H' by assumption.
    destruct (tail_inv r a i v Hi Hf Hg Hv) as [_ T].
    destruct (fst (dynarrGrow r a) =? 0); injection H' as _ <-; exact T. }
  split.
  { intros i a' H. assert (H' := H). unfold DYNARR_REMOVE in H.
    apply assert_some in H. destruct H as [Hv _]. apply valid_iff in Hv.
    destruct (remove_fields a a' i Hi Hf Hv H') as (Rs & Ro & Rc & _).
    unfold inv. rewrite Rs, Ro, Rc. lia. }
  split.
  { intros i a' H. assert (H' := H). unfold DYNARR_DITCH in H.
    apply assert_some in H. destruct H as [Hv _]. apply valid_iff in Hv.
    rewrite ditch_eq in H' by assumption.
    injection H' as <-. unfold inv. fields. lia. }
  split.
  { intros r s Hok. now apply resize_inv. }
  { intros r c. now apply capacity_inv. }
Qed.

(** ** A container with no reserved slot *)

Lemma empty_block_inv : inv empty_block.
Proof. vm_compute. repeat split; intro; discriminate. Qed.

(** C10, evaluated where it fails.  [empty_block] is what
    [DYNARR_CAPACITY(a, 0)] makes of a fresh container: capacity 0.  There
    [dynarrGrow] takes the offset-reset arm, reports success whatever the
    allocator would answer, and leaves [offs + size == capa]: no slot is
    free for the element [DYNARR_PUSH] stores next. *)
Theorem grow_without_room :
  reachable empty_block /\ inv empty_block /\
  forall realloc,
    fst (dynarrGrow realloc empty_block) = 0 /\
    capa (snd (dynarrGrow realloc empty_block)) = 0 /\
    offs (snd (dynarrGrow realloc empty_block))
    + size (snd (dynarrGrow realloc empty_block))
    = capa (snd (dynarrGrow realloc empty_block)) /\
    ~ (offs (snd (dynarrGrow realloc empty_block))
       + size (snd (dynarrGrow realloc empty_block))
       < capa (snd (dynarrGrow realloc empty_block))).
Proof.
  split; [exact empty_block_reachable|]. split; [exact empty_block_inv|].
  intros realloc. vm_compute. repeat split. intro; discriminate.
Qed.

(** C3, evaluated where it fails.  On [empty_block] the invariant holds, the
    push reports success (index 0), and afterwards [offs + size = 1] exceeds
    [capa = 0]: the element was stored past the reserved slots. *)
Theorem push_breaks_invariant :
  reachable empty_block /\ inv empty_block /\
  forall realloc v,
    fst (DYNARR_PUSH realloc empty_block v) = 0 /\
    capa (snd (DYNARR_PUSH realloc empty_block v)) = 0 /\
    offs (snd (DYNARR_PUSH realloc empty_block v)) = 0 /\
    size (snd (DYNARR_PUSH realloc empty_block v)) = 1 /\
    ~ inv (snd (DYNARR_PUSH realloc empty_block v)).
Proof.
  split; [exact empty_block_reachable|]. split; [exact empty_block_inv|].
  intros realloc v. vm_compute. repeat split.
  intros (_ & _ & H). apply H. reflexivity.
Qed.

(** ** dynarrFindLinear *)

Lemma memcmp_elt (a : dynarr) (k : list byte) (i : Z) :
  0 <= elem a -> value_of a k ->
  (memcmp k (elt a i) (elem a) = 0 <-> elt a i = k).
Proof.
  intros He Hk. unfold memcmp, value_of in *.
  rewrite !firstn_all2 by (rewrite ?elt_length; lia).
  rewrite memcmp_bytes_eq by (rewrite elt_length; lia).
  split; congruence.
Qed.

(** The loop leaves with [n = 0] exactly when its test [i < size] fails:
    more iterations in hand change nothing. *)
Lemma find_loop_fuel (a : dynarr) (k : list byte) (n m : nat) (i : Z) :
  size a <= Int.INT_MAX -> 0 <= i -> size a <= i + Z.of_nat n ->
  find_loop a k (n + m) i = find_loop a k n i.
Proof.
  intros Hmax. revert i. induction n as [|n IH]; intros i Hi Hn.
  - destruct m as [|m]; [reflexivity|]. cbn [Nat.add find_loop].
    now replace (i <? size a) with false by (symmetry; apply Z.ltb_ge; lia).
  - cbn [Nat.add find_loop]. destruct (Z.ltb_spec i (size a)) as [Hlt|Hge]; [|reflexivity].
    destruct (_ =? 0); [reflexivity|].
    rewrite (add_small i 1)
      by (unfold Int.in_range, Int.INT_MIN, Int.INT_MAX in *; lia).
    apply IH; lia.
Qed.

Lemma find_loop_spec (a : dynarr) (k : list byte) (n : nat) (i : Z) :
  size a <= Int.INT_MAX -> 0 <= elem a -> value_of a k ->
  0 <= i -> i + Z.of_nat n = size a ->
  (find_loop a k n i = -1 /\ forall j, i <= j < size a -> elt a j <> k) \/
  (i <= find_loop a k n i < size a /\
   elt a (find_loop a k n i) = k /\
   forall j, i <= j < find_loop a k n i -> elt a j <> k).
Proof.
  intros Hmax He Hk. revert i. induction n as [|n IH]; intros i Hi Hn.
  - left. split; [reflexivity | intros j Hj; lia].
  - cbn [find_loop].
    replace (i <? size a) with true by (symmetry; apply Z.ltb_lt; lia).
    destruct (Z.eqb_spec (memcmp k (elt a i) (elem a)) 0) as [E|E].
    + right. apply memcmp_elt in E; try assumption.
      split; [lia|]. split; [assumption | intros j Hj; lia].
    + rewrite (add_small i 1)
        by (unfold Int.in_range, Int.INT_MIN, Int.INT_MAX in *; lia).
      assert (Hne : elt a i <> k) by (intros Heq; apply E; now apply memcmp_elt).
      destruct (IH (i + 1) ltac:(lia) ltac:(lia)) as [(R & Hall) | (R & Hat & Hall)].
      * left. split; [assumption|]. intros j Hj.
        destruct (Z.eq_dec j i) as [->|]; [assumption | apply Hall; lia].
      * right. split; [lia|]. split; [assumption|]. intros j Hj.
        destruct (Z.eq_dec j i) as [->|]; [assumption | apply Hall; lia].
Qed.

(** C7. [dynarrFindLinear] returns the smallest index whose element has
    exactly the bytes of the key, and -1 when no element has them. *)
Theorem dynarrFindLinear_first (a : dynarr) (k : list byte) :
  inv a -> fits a -> value_of a k ->
  (dynarrFindLinear a k = -1 /\ forall j, 0 <= j < size a -> elt a j <> k) \/
  (0 <= dynarrFindLinear a k < size a /\
   elt a (dynarrFindLinear a k) = k /\
   forall j, 0 <= j < dynarrFindLinear a k -> elt a j <> k).
Proof.
  intros (Ho & Hs & Hc) Hf Hk. unfold dynarrFindLinear.
  apply find_loop_spec; try assumption; try lia.
  - assert (Hr : Int.in_range (size a)) by (apply (index_range a); [assumption | lia]).
    unfold Int.in_range in Hr. lia.
  - destruct Hf. lia.
Qed.

Lemma dynarrFindLinear_first_witness :
  dynarrFindLinear queue_tail (word x02) = 0 /\
  dynarrFindLinear queue_tail (word x07) = -1.
Proof.
  assert (Hi : inv queue_tail) by (vm_compute; repeat split; intro; discriminate).
  assert (Hf : fits queue_tail) by (vm_compute; repeat split; intro; discriminate).
  split.
  - destruct (dynarrFindLinear_first queue_tail (word x02) Hi Hf) as
      [(_ & Hall) | (Hr & _)].
    + reflexivity.
    + exfalso. apply (Hall 0); vm_compute; [split; [intro; discriminate|]|]; reflexivity.
    + assert (Hs : size queue_tail = 1) by (vm_compute; reflexivity).
      rewrite Hs in Hr. lia.
  - destruct (dynarrFindLinear_first queue_tail (word x07) Hi Hf) as
      [(Hr & _) | (Hr & Hat & _)].
    + reflexivity.
    + exact Hr.
    + exfalso.
      assert (Hs : size queue_tail = 1) by (vm_compute; reflexivity).
      rewrite Hs in Hr.
      assert (H0 : dynarrFindLinear queue_tail (word x07) = 0) by lia.
      rewrite H0 in Hat. vm_compute in Hat. discriminate.
Defined.

(** ** Insertion sort on lists

    The list view of [dynarrSortInsert].  The sorted prefix is kept reversed,
    so that its head is the element next to the one being inserted, as the
    inner loop meets them. *)

Section ListSortFacts.
Variable E : Type.
Variable comp : E -> E -> Z.

Lemma sift_in_length (x : E) (r : list E) : length (sift_in comp x r) = S (length r).
Proof.
  induction r as [|y r IH]; cbn [sift_in]; [reflexivity|].
  destruct (comp y x >? 0); cbn [length]; [now rewrite IH | reflexivity].
Qed.

Lemma sift_in_perm (x : E) (r : list E) : Permutation (x :: r) (sift_in comp x r).
Proof.
  induction r as [|y r IH]; cbn [sift_in]; [reflexivity|].
  destruct (comp y x >? 0); [|reflexivity].
  rewrite perm_swap. now apply perm_skip.
Qed.

Lemma sift_all_perm (l r : list E) : Permutation (rev l ++ r) (sift_all comp l r).
Proof.
  revert r. induction l as [|x l IH]; intros r; cbn [sift_all fold_left rev app].
  - reflexivity.
  - rewrite <- app_assoc. cbn [app].
    transitivity (rev l ++ sift_in comp x r); [|apply IH].
    apply Permutation_app_head, sift_in_perm.
Qed.

(** The head of [sift_in comp x r] is [x] or the head of [r]. *)
Lemma sift_in_head (x : E) (r : list E) :
  match sift_in comp x r with
  | [] => False
  | h :: _ => h = x \/ match r with y :: _ => h = y /\ comp y x > 0 | [] => False end
  end.
Proof.
  destruct r as [|y r]; cbn [sift_in]; [now left|].
  destruct (Z.gtb_spec (comp y x) 0); [right; split; [reflexivity | lia] | now left].
Qed.

Lemma sift_in_desc (x : E) (r : list E) :
  total_order comp -> desc comp r -> desc comp (sift_in comp x r).
Proof.
  intros [Hsym _]. induction r as [|y r IH]; intros Hd; cbn [sift_in].
  - cbn. auto.
  - destruct Hd as [Hy Hr].
    destruct (Z.gtb_spec (comp y x) 0) as [Hgt|Hle].
    + cbn [desc]. split; [|now apply IH].
      pose proof (sift_in_head x r) as Hh.
      destruct (sift_in comp x r) as [|h t]; [contradiction|].
      destruct Hh as [->|Hh].
      * pose proof (proj1 (Hsym y x)). lia.
      * destruct r as [|z r']; [contradiction|]. destruct Hh as [-> _]. exact Hy.
    + cbn [desc]. split; [exact Hle|]. split; assumption.
Qed.

Lemma sift_all_desc (l r : list E) :
  total_order comp -> desc comp r -> desc comp (sift_all comp l r).
Proof.
  intros Ht. revert r. induction l as [|x l IH]; intros r Hd; cbn [sift_all fold_left].
  - exact Hd.
  - apply IH. now apply sift_in_desc.
Qed.

(** Adjacent elements of a descending list, read by index. *)
Lemma desc_nth (r : list E) (k : nat) (d : E) :
  desc comp r -> (S k < length r)%nat -> comp (nth (S k) r d) (nth k r d) <= 0.
Proof.
  revert k. induction r as [|y r IH]; intros k Hd Hk; [cbn in Hk; lia|].
  destruct Hd as [Hy Hr]. destruct k as [|k].
  - destruct r as [|z r']; [cbn in Hk; lia | exact Hy].
  - cbn [nth]. apply IH; [assumption | cbn in Hk; lia].
Qed.

(** Adjacent elements of the reversal of a descending list are in order. *)
Lemma desc_rev_adjacent (r : list E) (i : nat) (d : E) :
  desc comp r -> (S i < length r)%nat ->
  comp (nth i (rev r) d) (nth (S i) (rev r) d) <= 0.
Proof.
  intros Hd Hi. rewrite !rev_nth by lia.
  replace (length r - S i)%nat with (S (length r - S (S i))) by lia.
  apply desc_nth; [assumption | lia].
Qed.

Lemma ties_exclusive (z x y : E) :
  total_order comp -> comp z x = 0 -> comp z y = 0 -> comp y x > 0 -> False.
Proof.
  intros [Hsym Htr] Hx Hy Hgt.
  assert (Hyz : comp y z <= 0).
  { destruct (Z_le_gt_dec (comp y z) 0) as [H|H]; [assumption|].
    apply Hsym in H. lia. }
  assert (Hle : comp y x <= 0) by (apply (Htr y z x); lia).
  lia.
Qed.

Lemma sift_in_ties (z x : E) (r : list E) :
  total_order comp -> ties comp z (sift_in comp x r) = ties comp z [x] ++ ties comp z r.
Proof.
  intros Ht. induction r as [|y r IH]; cbn [sift_in]; [now rewrite app_nil_r|].
  destruct (Z.gtb_spec (comp y x) 0) as [Hgt|Hle];
    [|unfold ties; cbn [filter app]; destruct (comp z x =? 0); reflexivity].
  unfold ties in *. cbn [filter] in *. rewrite IH.
  destruct (Z.eqb_spec (comp z y) 0) as [Hy|Hy]; [|reflexivity].
  destruct (Z.eqb_spec (comp z x) 0) as [Hx|Hx]; [|reflexivity].
  exfalso. apply (ties_exclusive z x y Ht Hx Hy). lia.
Qed.

Lemma sift_all_ties (z : E) (l r : list E) :
  total_order comp -> ties comp z (sift_all comp l r) = rev (ties comp z l) ++ ties comp z r.
Proof.
  intros Ht. revert r. induction l as [|x l IH]; intros r; cbn [sift_all fold_left].
  - reflexivity.
  - fold (sift_all comp l (sift_in comp x r)). rewrite IH, sift_in_ties by assumption.
    unfold ties. cbn [filter].
    destruct (comp z x =? 0); cbn [rev app]; [|reflexivity].
    now rewrite <- app_assoc.
Qed.

Lemma ties_rev (z : E) (l : list E) : ties comp z (rev l) = rev (ties comp z l).
Proof.
  unfold ties. induction l as [|x l IH]; [reflexivity|].
  cbn [rev filter]. rewrite filter_app, IH. cbn [filter].
  destruct (comp z x =? 0); cbn [rev]; [reflexivity | now rewrite app_nil_r].
Qed.

(** Swapping the two elements after a prefix, read by index. *)
Lemma nth_swapped (p t : list E) (x y d : E) (k : nat) :
  nth k (p ++ x :: y :: t) d =
  if Nat.eqb k (length p) then nth (S (length p)) (p ++ y :: x :: t) d
  else if Nat.eqb k (S (length p)) then nth (length p) (p ++ y :: x :: t) d
  else nth k (p ++ y :: x :: t) d.
Proof.
  destruct (Nat.eqb_spec k (length p)) as [->|Hne].
  - rewrite !app_nth2 by lia.
    replace (length p - length p)%nat with 0%nat by lia.
    replace (S (length p) - length p)%nat with 1%nat by lia. reflexivity.
  - destruct (Nat.eqb_spec k (S (length p))) as [->|Hne'].
    + rewrite !app_nth2 by lia.
      replace (length p - length p)%nat with 0%nat by lia.
      replace (S (length p) - length p)%nat with 1%nat by lia. reflexivity.
    + destruct (Nat.lt_ge_cases k (length p)) as [Hlt|Hge].
      * now rewrite !app_nth1 by lia.
      * rewrite !app_nth2 by lia.
        destruct (k - length p)%nat as [|[|m]] eqn:Hm; try lia. reflexivity.
Qed.
End ListSortFacts.


(** ** dynarrSortInsert *)

Lemma swap_prev_eq (a : dynarr) (i : Z) :
  inv a -> fits a -> 1 <= i < size a ->
  swap_prev a i =
  set_data a
    (store (store (data a) (elem a * (offs a + i))
                  (load (data a) (elem a * (offs a + (i - 1))) (elem a)))
           (elem a * (offs a + (i - 1)))
           (load (data a) (elem a * (offs a + i)) (elem a))).
Proof.
  intros (Ho & Hs & Hc) Hf Hi. unfold swap_prev, memcpy.
  rewrite (sub_small i 1) by (apply (index_range a); [assumption | lia]).
  now rewrite !EPTR_eq by (try assumption; lia).
Qed.

(** The [memcpy] inside the exchange copies between two neighbouring,
    disjoint elements. *)
Lemma swap_memcpy_disjoint (a : dynarr) (i : Z) :
  inv a -> fits a -> 1 <= i < size a ->
  DARR_EPTR a (Int.sub i 1) + elem a <= DARR_EPTR a i.
Proof.
  intros (Ho & Hs & Hc) Hf Hi.
  rewrite (sub_small i 1) by (apply (index_range a); [assumption | lia]).
  rewrite !EPTR_eq by (try assumption; lia). lia.
Qed.

Lemma swap_prev_elt (a : dynarr) (i k : Z) :
  inv a -> fits a -> 1 <= i < size a -> 0 <= k < size a ->
  elt (swap_prev a i) k =
  if k =? i - 1 then elt a i else if k =? i then elt a (i - 1) else elt a k.
Proof.
  intros Hi Hf Hr Hk. rewrite swap_prev_eq by assumption.
  destruct Hi as (Ho & Hs & Hc). assert (He : 0 < elem a) by (destruct Hf; assumption).
  unfold elt, DARR_EPTR. fields.
  rewrite (add_small (offs a) k) by (apply (index_range a); [assumption | lia]).
  rewrite (mul_small (elem a) (offs a + k)) by (apply bytes_range; [assumption | lia]).
  rewrite (add_small (offs a) i) by (apply (index_range a); [assumption | lia]).
  rewrite (mul_small (elem a) (offs a + i)) by (apply bytes_range; [assumption | lia]).
  rewrite (add_small (offs a) (i - 1)) by (apply (index_range a); [assumption | lia]).
  rewrite (mul_small (elem a) (offs a + (i - 1)))
    by (apply bytes_range; [assumption | lia]).
  rewrite load_store_slots by (rewrite ?load_length; lia).
  destruct (Z.eqb_spec (offs a + (i - 1)) (offs a + k)) as [E1|E1].
  - now replace (k =? i - 1) with true by (symmetry; apply Z.eqb_eq; lia).
  - replace (k =? i - 1) with false by (symmetry; apply Z.eqb_neq; lia).
    rewrite load_store_slots by (rewrite ?load_length; lia).
    destruct (Z.eqb_spec (offs a + i) (offs a + k)) as [E2|E2].
    + now replace (k =? i) with true by (symmetry; apply Z.eqb_eq; lia).
    + now replace (k =? i) with false by (symmetry; apply Z.eqb_neq; lia).
Qed.

Lemma contents_size (a : dynarr) (l : list (list byte)) :
  inv a -> contents a = l -> size a = Z.of_nat (length l).
Proof.
  intros (_ & Hs & _) <-. rewrite contents_length. lia.
Qed.

Lemma elt_of_contents (a : dynarr) (p t : list (list byte)) (e : list byte) :
  inv a -> contents a = p ++ e :: t -> elt a (Z.of_nat (length p)) = e.
Proof.
  intros Hi Hc. pose proof (contents_size a _ Hi Hc) as Hs.
  rewrite length_app in Hs. cbn [length] in Hs.
  rewrite <- (contents_nth a (length p) []) by lia.
  rewrite Hc. apply nth_middle.
Qed.

(** Exchanging two neighbours in the buffer exchanges them in the logical
    sequence. *)
Lemma swap_prev_contents (a : dynarr) (p t : list (list byte)) (x y : list byte) :
  inv a -> fits a -> contents a = p ++ y :: x :: t ->
  contents (swap_prev a (Z.of_nat (S (length p)))) = p ++ x :: y :: t.
Proof.
  intros Hi Hf Hc. pose proof (contents_size a _ Hi Hc) as Hs.
  rewrite length_app in Hs. cbn [length] in Hs.
  assert (Hr : 1 <= Z.of_nat (S (length p)) < size a) by lia.
  assert (Hsz : size (swap_prev a (Z.of_nat (S (length p)))) = size a) by reflexivity.
  apply contents_intro.
  - rewrite Hsz, Hs, length_app. cbn [length]. lia.
  - rewrite Hsz. intros k Hk.
    rewrite swap_prev_elt by (try assumption; lia).
    rewrite nth_swapped, <- Hc.
    replace (Z.of_nat (S (length p)) - 1) with (Z.of_nat (length p)) by lia.
    destruct (Nat.eqb_spec k (length p)) as [->|Hne].
    + rewrite Z.eqb_refl. now rewrite contents_nth by lia.
    + replace (Z.of_nat k =? Z.of_nat (length p)) with false
        by (symmetry; apply Z.eqb_neq; lia).
      destruct (Nat.eqb_spec k (S (length p))) as [->|Hne'].
      * rewrite Z.eqb_refl. now rewrite contents_nth by lia.
      * replace (Z.of_nat k =? Z.of_nat (S (length p))) with false
          by (symmetry; apply Z.eqb_neq; lia).
        now rewrite contents_nth by lia.
Qed.

Lemma same_header_inv (a b : dynarr) : same_header a b -> inv a -> inv b.
Proof. intros (Hs & Ho & Hc & _). unfold inv. now rewrite Hs, Ho, Hc. Qed.

Lemma same_header_fits (a b : dynarr) : same_header a b -> fits a -> fits b.
Proof. intros (_ & _ & Hc & He). unfold fits. now rewrite Hc, He. Qed.

(** The inner loop inserts element [i] into the sorted prefix before it. *)
Lemma sort_inner_spec (comp : list byte -> list byte -> Z) (n : nat) :
  forall (a : dynarr) (r rest : list (list byte)) (x : list byte),
    inv a -> fits a -> contents a = rev r ++ x :: rest -> (length r <= n)%nat ->
    contents (sort_inner comp a n (Z.of_nat (length r))) =
      rev (sift_in comp x r) ++ rest /\
    same_header a (sort_inner comp a n (Z.of_nat (length r))).
Proof.
  induction n as [|n IH]; intros a r rest x Hi Hf Hc Hn.
  - destruct r as [|y r]; [|cbn in Hn; lia]. cbn [sort_inner sift_in rev app] in *.
    split; [assumption | repeat split].
  - destruct r as [|y r].
    + cbn [sort_inner length Z.of_nat sift_in rev app] in *.
      replace (0 >? 0) with false by reflexivity. cbn [andb].
      split; [assumption | repeat split].
    + cbn [rev] in Hc. rewrite <- app_assoc in Hc. cbn [app] in Hc.
      pose proof (contents_size a _ Hi Hc) as Hs.
      rewrite length_app, length_rev in Hs. cbn [length] in Hs.
      assert (Hi' := Hi). destruct Hi' as (Ho & Hsz & Hcap).
      cbn [sort_inner length].
      replace (Z.of_nat (S (length r)) >? 0) with true
        by (symmetry; apply Z.gtb_lt; lia).
      cbn [andb].
      rewrite (sub_small (Z.of_nat (S (length r))) 1)
        by (apply (index_range a); [assumption | lia]).
      replace (Z.of_nat (S (length r)) - 1) with (Z.of_nat (length (rev r)))
        by (rewrite length_rev; lia).
      rewrite (elt_of_contents a (rev r) (x :: rest) y Hi Hc).
      assert (Hx : elt a (Z.of_nat (S (length r))) = x).
      { replace (S (length r)) with (length (rev r ++ [y]))
          by (rewrite length_app, length_rev; cbn [length]; lia).
        apply (elt_of_contents a (rev r ++ [y]) rest x Hi).
        now rewrite <- app_assoc. }
      rewrite Hx. cbn [sift_in].
      destruct (comp y x >? 0).
      * pose proof (swap_prev_contents a (rev r) rest x y Hi Hf Hc) as Hsw.
        rewrite length_rev in Hsw.
        set (a1 := swap_prev a (Z.of_nat (S (length r)))) in *.
        assert (Hh1 : same_header a a1) by (repeat split).
        rewrite length_rev.
        destruct (IH a1 r (y :: rest) x (same_header_inv a a1 Hh1 Hi)
                    (same_header_fits a a1 Hh1 Hf) Hsw ltac:(cbn in Hn; lia))
          as (Hc2 & Hs2 & Ho2 & Hcp2 & He2).
        split.
        -- rewrite Hc2. cbn [rev]. now rewrite <- app_assoc.
        -- destruct Hh1 as (? & ? & ? & ?). repeat split; congruence.
      * split; [|repeat split].
        rewrite Hc. cbn [rev]. now rewrite <- !app_assoc.
Qed.

(** The outer loop inserts the remaining elements one after the other. *)
Lemma sort_outer_spec (comp : list byte -> list byte -> Z) (n : nat) :
  forall (a : dynarr) (r rest : list (list byte)),
    inv a -> fits a -> contents a = rev r ++ rest -> (length rest <= n)%nat ->
    contents (sort_outer comp a n (Z.of_nat (length r))) =
      rev (sift_all comp rest r) /\
    same_header a (sort_outer comp a n (Z.of_nat (length r))).
Proof.
  induction n as [|n IH]; intros a r rest Hi Hf Hc Hn.
  - destruct rest as [|x rest]; [|cbn in Hn; lia].
    rewrite app_nil_r in Hc. cbn [sort_outer sift_all fold_left].
    split; [assumption | repeat split].
  - pose proof (contents_size a _ Hi Hc) as Hs.
    rewrite length_app, length_rev in Hs.
    cbn [sort_outer]. destruct rest as [|x rest].
    + cbn [length] in Hs.
      replace (Z.of_nat (length r) <? size a) with false
        by (symmetry; apply Z.ltb_ge; lia).
      rewrite app_nil_r in Hc. cbn [sift_all fold_left].
      split; [assumption | repeat split].
    + cbn [length] in Hs.
      replace (Z.of_nat (length r) <? size a) with true
        by (symmetry; apply Z.ltb_lt; lia).
      rewrite Nat2Z.id.
      destruct (sort_inner_spec comp (length r) a r rest x Hi Hf Hc (Nat.le_refl _))
        as (Hc1 & Hh1).
      set (a1 := sort_inner comp a (length r) (Z.of_nat (length r))) in *.
      assert (Hi' := Hi). destruct Hi' as (Ho & Hsz & Hcap).
      rewrite (add_small (Z.of_nat (length r)) 1)
        by (apply (index_range a); [assumption | lia]).
      replace (Z.of_nat (length r) + 1) with (Z.of_nat (length (sift_in comp x r)))
        by (rewrite sift_in_length; lia).
      destruct (IH a1 (sift_in comp x r) rest (same_header_inv a a1 Hh1 Hi)
                  (same_header_fits a a1 Hh1 Hf) Hc1 ltac:(cbn in Hn; lia))
        as (Hc2 & Hs2 & Ho2 & Hcp2 & He2).
      split; [exact Hc2|].
      destruct Hh1 as (? & ? & ? & ?). repeat split; congruence.
Qed.

Lemma sort_contents (comp : list byte -> list byte -> Z) (a : dynarr) :
  inv a -> fits a ->
  contents (dynarrSortInsert a comp) = rev (sift_all comp (contents a) []) /\
  same_header a (dynarrSortInsert a comp).
Proof.
  intros Hi Hf. unfold dynarrSortInsert.
  destruct (contents a) as [|e0 tl] eqn:Hc.
  - pose proof (contents_size a _ Hi Hc) as Hs. cbn [length] in Hs.
    rewrite Hs. cbn [Z.of_nat Z.to_nat sort_outer sift_all fold_left rev].
    split; [assumption | repeat split].
  - pose proof (contents_size a _ Hi Hc) as Hs. cbn [length] in Hs.
    change (e0 :: tl) with (rev [e0] ++ tl) in Hc.
    change 1 with (Z.of_nat (length [e0])).
    apply (sort_outer_spec comp (Z.to_nat (size a)) a [e0] tl Hi Hf Hc). lia.
Qed.

(** C8. [dynarrSortInsert] sorts in place: afterwards the logical sequence
    is a permutation of the original one, every adjacent pair satisfies
    [comp(e[i], e[i+1]) <= 0], and for every [z] the elements that compare
    equal to [z] occur in their original order. *)
Theorem dynarrSortInsert_sorts (comp : list byte -> list byte -> Z) (a : dynarr) :
  inv a -> fits a -> total_order comp ->
  same_header a (dynarrSortInsert a comp) /\
  Permutation (contents a) (contents (dynarrSortInsert a comp)) /\
  (forall i, 0 <= i < size a - 1 ->
             comp (elt (dynarrSortInsert a comp) i)
                  (elt (dynarrSortInsert a comp) (i + 1)) <= 0) /\
  (forall z, ties comp z (contents (dynarrSortInsert a comp)) =
             ties comp z (contents a)).
Proof.
  intros Hi Hf Ht. destruct (sort_contents comp a Hi Hf) as (Hc & Hh).
  split; [exact Hh|]. split; [|split].
  - rewrite Hc. rewrite <- Permutation_rev.
    rewrite <- (sift_all_perm _ comp (contents a) []).
    rewrite app_nil_r. apply Permutation_rev.
  - intros i Hr. destruct Hh as (Hs & _).
    assert (Hd : desc comp (sift_all comp (contents a) []))
      by (apply sift_all_desc; [assumption | exact I]).
    assert (Hlen : length (sift_all comp (contents a) []) = Z.to_nat (size a)).
    { rewrite <- (length_rev (sift_all comp (contents a) [])), <- Hc, contents_length.
      now rewrite Hs. }
    replace i with (Z.of_nat (Z.to_nat i)) by lia.
    replace (Z.of_nat (Z.to_nat i) + 1) with (Z.of_nat (S (Z.to_nat i))) by lia.
    rewrite <- !(contents_nth _ _ []) by (rewrite Hs; lia).
    rewrite Hc. apply desc_rev_adjacent; [assumption | lia].
  - intros z. rewrite Hc, ties_rev, sift_all_ties by assumption.
    cbn [ties filter]. now rewrite app_nil_r, rev_involutive.
Qed.

Lemma by_first_byte_total : total_order by_first_byte.
Proof. unfold total_order, by_first_byte. split; intros; lia. Qed.

Example pushed_contents :
  contents unsorted4 =
  [tagged x02 x0a; tagged x01 x0b; tagged x02 x0c; tagged x01 x0d] /\
  size unsorted4 = 4 /\ capa unsorted4 = 4 /\ offs unsorted4 = 0.
Proof. vm_compute. repeat split. Qed.

Example sort_example :
  contents (dynarrSortInsert unsorted4 by_first_byte) =
  [tagged x01 x0b; tagged x01 x0d; tagged x02 x0a; tagged x02 x0c].
Proof. vm_compute. reflexivity. Qed.

Lemma dynarrSortInsert_sorts_witness :
  Permutation (contents unsorted4)
              (contents (dynarrSortInsert unsorted4 by_first_byte)) /\
  by_first_byte (elt (dynarrSortInsert unsorted4 by_first_byte) 1)
                (elt (dynarrSortInsert unsorted4 by_first_byte) 2) <= 0 /\
  ties by_first_byte (tagged x02 x00)
       (contents (dynarrSortInsert unsorted4 by_first_byte))
  = [tagged x02 x0a; tagged x02 x0c].
Proof.
  assert (Hi : inv unsorted4) by (vm_compute; repeat split; intro; discriminate).
  assert (Hf : fits unsorted4) by (vm_compute; repeat split; intro; discriminate).
  destruct (dynarrSortInsert_sorts by_first_byte unsorted4 Hi Hf by_first_byte_total)
    as (_ & Hp & Hs & Ht).
  split; [exact Hp|]. split.
  - apply (Hs 1). vm_compute. split; [intro; discriminate | reflexivity].
  - rewrite Ht. vm_compute. reflexivity.
Defined.

(** ** A worked run

    Append 5, 3, 8, 1; sort; search 5; dequeue; clear; append 42. *)
Example worked_run :
  let a := pushed [word x05; word x03; word x08; word x01] in
  let b := DYNARR_SORT_INS a by_first_byte in
  DYNARR_SIZE a = 4 /\
  contents a = [word x05; word x03; word x08; word x01] /\
  contents b = [word x01; word x03; word x05; word x08] /\
  DYNARR_FIND_LIN b (word x05) = 2 /\
  DYNARR_FIND_LIN b (word x07) = -1 /\
  match DYNARR_DEQUEUE b with
  | Some (v, c) =>
      v = word x01 /\ DYNARR_SIZE c = 3 /\
      contents c = [word x03; word x05; word x08] /\
      DYNARR_SIZE (DYNARR_CLEAR c) = 0 /\
      contents (snd (DYNARR_PUSH alloc_ok (DYNARR_CLEAR c) (word x2a))) = [word x2a]
  | None => False
  end.
Proof. vm_compute. repeat split. Qed.

(** * Further properties of the interface *)

(** ** Lists spliced by index *)

Section Splice.
Variable E : Type.

Lemma nth_splice (l : list E) (i k : nat) (v d : E) :
  (i < length l)%nat ->
  nth k (firstn i l ++ v :: skipn (S i) l) d = if Nat.eqb k i then v else nth k l d.
Proof.
  intros Hi. assert (Hl : length (firstn i l) = i) by (apply firstn_length_le; lia).
  destruct (Nat.eqb_spec k i) as [->|Hne].
  - rewrite app_nth2 by lia. rewrite Hl, Nat.sub_diag. reflexivity.
  - destruct (Nat.lt_ge_cases k i) as [Hlt|Hge].
    + rewrite app_nth1 by lia. rewrite nth_firstn.
      now replace (Nat.ltb k i) with true by (symmetry; apply Nat.ltb_lt; lia).
    + rewrite app_nth2 by lia. rewrite Hl.
      destruct (k - i)%nat as [|m] eqn:Hm; [lia|]. cbn [nth].
      rewrite nth_skipn. f_equal. lia.
Qed.

Lemma nth_inserted (l : list E) (i k : nat) (v d : E) :
  (i <= length l)%nat ->
  nth k (firstn i l ++ v :: skipn i l) d =
  if Nat.ltb k i then nth k l d else if Nat.eqb k i then v else nth (k - 1) l d.
Proof.
  intros Hi. assert (Hl : length (firstn i l) = i) by (apply firstn_length_le; lia).
  destruct (Nat.ltb_spec k i) as [Hlt|Hge].
  - rewrite app_nth1 by lia. rewrite nth_firstn.
    now replace (Nat.ltb k i) with true by (symmetry; apply Nat.ltb_lt; lia).
  - rewrite app_nth2 by lia. rewrite Hl.
    destruct (Nat.eqb_spec k i) as [->|Hne].
    + now rewrite Nat.sub_diag.
    + destruct (k - i)%nat as [|m] eqn:Hm; [lia|]. cbn [nth].
      rewrite nth_skipn. f_equal. lia.
Qed.

Lemma nth_deleted (l : list E) (i k : nat) (d : E) :
  (i < length l)%nat ->
  nth k (firstn i l ++ skipn (S i) l) d = if Nat.ltb k i then nth k l d else nth (S k) l d.
Proof.
  intros Hi. assert (Hl : length (firstn i l) = i) by (apply firstn_length_le; lia).
  destruct (Nat.ltb_spec k i) as [Hlt|Hge].
  - rewrite app_nth1 by lia. rewrite nth_firstn.
    now replace (Nat.ltb k i) with true by (symmetry; apply Nat.ltb_lt; lia).
  - rewrite app_nth2 by lia. rewrite Hl, nth_skipn. f_equal. lia.
Qed.

Lemma splice_length (l : list E) (i : nat) (v : E) :
  (i < length l)%nat -> length (firstn i l ++ v :: skipn (S i) l) = length l.
Proof.
  intros Hi. rewrite length_app, firstn_length_le by lia.
  cbn [length]. rewrite length_skipn. lia.
Qed.

Lemma inserted_length (l : list E) (i : nat) (v : E) :
  (i <= length l)%nat -> length (firstn i l ++ v :: skipn i l) = S (length l).
Proof.
  intros Hi. rewrite length_app, firstn_length_le by lia.
  cbn [length]. rewrite length_skipn. lia.
Qed.

Lemma deleted_length (l : list E) (i : nat) :
  (i < length l)%nat -> length (firstn i l ++ skipn (S i) l) = (length l - 1)%nat.
Proof.
  intros Hi. rewrite length_app, firstn_length_le by lia.
  rewrite length_skipn. lia.
Qed.

Lemma skipn_nth_cons (l : list E) (i : nat) (d : E) :
  (i < length l)%nat -> skipn i l = nth i l d :: skipn (S i) l.
Proof.
  revert i. induction l as [|x l IH]; intros i Hi; [cbn in Hi; lia|].
  destruct i as [|i]; [reflexivity|]. cbn [skipn nth]. apply IH. cbn in Hi. lia.
Qed.

(** Replacing one element and appending the replaced one permutes the list
    extended by the new element. *)
Lemma splice_perm (l : list E) (i : nat) (v d : E) :
  (i < length l)%nat ->
  Permutation (v :: l) ((firstn i l ++ v :: skipn (S i) l) ++ [nth i l d]).
Proof.
  intros Hi.
  assert (Hsplit : l = firstn i l ++ nth i l d :: skipn (S i) l).
  { rewrite <- (firstn_skipn i l) at 1. f_equal.
    now apply skipn_nth_cons. }
  set (F := firstn i l) in *. set (S' := skipn (S i) l) in *. set (x := nth i l d) in *.
  apply Permutation_trans with (v :: F ++ x :: S'); [now rewrite <- Hsplit|].
  apply Permutation_trans with (v :: x :: F ++ S').
  - apply perm_skip. symmetry. apply Permutation_middle.
  - apply Permutation_trans with (x :: v :: F ++ S'); [apply perm_swap|].
    apply Permutation_trans with (x :: (F ++ v :: S')).
    + apply perm_skip, Permutation_middle.
    + apply Permutation_cons_append.
Qed.
End Splice.

(** ** Reading and writing one element *)

Lemma elt_nth (a : dynarr) (i : Z) :
  0 <= i < size a -> elt a i = nth (Z.to_nat i) (contents a) [].
Proof.
  intros Hi. rewrite contents_nth by lia. f_equal. lia.
Qed.

Lemma at_eq (a : dynarr) (i : Z) :
  inv a -> fits a -> 0 <= i < size a -> DYNARR_AT a i = Some (elt a i).
Proof.
  intros (Ho & Hs & Hc) Hf Hi. unfold DYNARR_AT, DARR_ASSERT.
  rewrite (proj2 (valid_iff a i) Hi).
  rewrite (add_small (offs a) i) by (apply (index_range a); [assumption | lia]).
  now rewrite elt_slot by (try assumption; lia).
Qed.

Lemma at_invalid (a : dynarr) (i : Z) :
  ~ (0 <= i < size a) -> DYNARR_AT a i = None.
Proof.
  intros Hi. unfold DYNARR_AT, DARR_ASSERT.
  destruct (DYNARR_VALID a i) eqn:Hv; [|reflexivity].
  apply valid_iff in Hv. contradiction.
Qed.

(** X1. [DYNARR_AT] with a valid index reads the element of the logical
    sequence at that index, and aborts on every other index; [DYNARR_FIRST]
    and [DYNARR_LAST] read the ends and abort on an empty container. *)
Theorem element_access (a : dynarr) :
  inv a -> fits a ->
  (forall i, 0 <= i < size a ->
             DYNARR_AT a i = Some (nth (Z.to_nat i) (contents a) [])) /\
  (forall i, ~ (0 <= i < size a) -> DYNARR_AT a i = None) /\
  DYNARR_FIRST a =
    (if size a =? 0 then None else Some (nth 0 (contents a) [])) /\
  DYNARR_LAST a =
    (if size a =? 0 then None
     else Some (nth (Z.to_nat (size a - 1)) (contents a) [])).
Proof.
  intros Hi Hf. assert (Hi' := Hi). destruct Hi' as (Ho & Hs & Hc).
  split; [intros i Hr; rewrite at_eq, elt_nth by assumption; reflexivity|].
  split; [exact (at_invalid a)|].
  unfold DYNARR_FIRST, DYNARR_LAST, DARR_ASSERT.
  destruct (Z.eqb_spec (size a) 0) as [H0|Hne]; cbn [negb]; [split; reflexivity|].
  split.
  - change (nth 0 (contents a) []) with (nth (Z.to_nat 0) (contents a) []).
    rewrite <- (elt_nth a 0) by lia. rewrite elt_slot by (try assumption; lia).
    now rewrite Z.add_0_r.
  - rewrite (add_small (offs a) (size a)) by (apply (index_range a); [assumption | lia]).
    rewrite (sub_small (offs a + size a) 1)
      by (apply (index_range a); [assumption | lia]).
    rewrite <- (elt_nth a (size a - 1)) by lia.
    rewrite elt_slot by (try assumption; lia). do 2 f_equal. lia.
Qed.

Lemma element_access_witness :
  DYNARR_AT unsorted4 2 = Some (tagged x02 x0c) /\
  DYNARR_AT unsorted4 4 = None /\
  DYNARR_FIRST unsorted4 = Some (tagged x02 x0a) /\
  DYNARR_LAST unsorted4 = Some (tagged x01 x0d).
Proof.
  assert (Hi : inv unsorted4) by (vm_compute; repeat split; intro; discriminate).
  assert (Hf : fits unsorted4) by (vm_compute; repeat split; intro; discriminate).
  destruct (element_access unsorted4 Hi Hf) as (Hat & Hno & Hfirst & Hlast).
  split; [rewrite Hat by (vm_compute; split; [intro; discriminate | reflexivity]);
          vm_compute; reflexivity|].
  split; [apply Hno; vm_compute; intros [_ H]; discriminate|].
  split; [rewrite Hfirst | rewrite Hlast]; vm_compute; reflexivity.
Defined.

(** Elements after a store into the slot of logical element [i]. *)
Lemma slot_set_elt (a : dynarr) (i k : Z) (v : list byte) :
  inv a -> fits a -> 0 <= i -> offs a + i <= capa a -> 0 <= k -> offs a + k <= capa a ->
  value_of a v ->
  elt (slot_set a (offs a + i) v) k = if k =? i then v else elt a k.
Proof.
  intros (Ho & Hs & Hc) Hf Hi Hic Hk Hkc Hv.
  unfold elt, DARR_EPTR. fields. unfold slot.
  rewrite (add_small (offs a) k) by (apply (index_range a); [assumption | lia]).
  rewrite (mul_small (elem a) (offs a + k)) by (apply bytes_range; [assumption | lia]).
  rewrite load_store_slots by (destruct Hf; assumption).
  destruct (Z.eqb_spec (offs a + i) (offs a + k)) as [E|E].
  - now replace (k =? i) with true by (symmetry; apply Z.eqb_eq; lia).
  - now replace (k =? i) with false by (symmetry; apply Z.eqb_neq; lia).
Qed.

Lemma assign_contents (a : dynarr) (i : Z) (v : list byte) :
  inv a -> fits a -> 0 <= i < size a -> value_of a v ->
  contents (slot_set a (offs a + i) v) =
  firstn (Z.to_nat i) (contents a) ++ v :: skipn (S (Z.to_nat i)) (contents a).
Proof.
  intros Hi Hf Hr Hv. assert (Hi' := Hi). destruct Hi' as (Ho & Hs & Hc).
  apply contents_intro.
  - rewrite splice_length by (rewrite contents_length; lia).
    now rewrite contents_length.
  - fields. intros k Hk.
    rewrite nth_splice by (rewrite contents_length; lia).
    rewrite slot_set_elt by (try assumption; lia).
    destruct (Nat.eqb_spec k (Z.to_nat i)) as [->|Hne].
    + now replace (Z.of_nat (Z.to_nat i) =? i) with true by (symmetry; apply Z.eqb_eq; lia).
    + replace (Z.of_nat k =? i) with false by (symmetry; apply Z.eqb_neq; lia).
      now rewrite contents_nth by lia.
Qed.

(** X2. Assigning through [DYNARR_AT] with a valid index changes exactly
    that element: the header is unchanged, the logical sequence is the old
    one with element [i] replaced, and reading index [i] back gives the
    value written. *)
Theorem at_assign_replaces (a : dynarr) (i : Z) (v : list byte) :
  inv a -> fits a -> 0 <= i < size a -> value_of a v ->
  exists a',
    DYNARR_AT_assign a i v = Some a' /\ same_header a a' /\
    contents a' =
      firstn (Z.to_nat i) (contents a) ++ v :: skipn (S (Z.to_nat i)) (contents a) /\
    DYNARR_AT a' i = Some v.
Proof.
  intros Hi Hf Hr Hv. assert (Hi' := Hi). destruct Hi' as (Ho & Hs & Hc).
  exists (slot_set a (offs a + i) v). split.
  - unfold DYNARR_AT_assign, DARR_ASSERT. rewrite (proj2 (valid_iff a i) Hr).
    now rewrite (add_small (offs a) i) by (apply (index_range a); [assumption | lia]).
  - split; [repeat split|]. split; [now apply assign_contents|].
    rewrite at_eq by (try assumption; fields; lia).
    rewrite slot_set_elt by (try assumption; lia). now rewrite Z.eqb_refl.
Qed.

Lemma at_assign_replaces_witness :
  exists a',
    DYNARR_AT_assign unsorted4 1 (tagged x07 x07) = Some a' /\
    contents a' =
      [tagged x02 x0a; tagged x07 x07; tagged x02 x0c; tagged x01 x0d] /\
    DYNARR_AT a' 1 = Some (tagged x07 x07).
Proof.
  assert (Hi : inv unsorted4) by (vm_compute; repeat split; intro; discriminate).
  assert (Hf : fits unsorted4) by (vm_compute; repeat split; intro; discriminate).
  destruct (at_assign_replaces unsorted4 1 (tagged x07 x07) Hi Hf)
    as (a' & He & _ & Hc & Hat).
  - vm_compute. split; [intro; discriminate | reflexivity].
  - reflexivity.
  - exists a'. split; [exact He|]. split; [|exact Hat].
    rewrite Hc. vm_compute. reflexivity.
Defined.

(** ** Pushing and popping *)

(** X3. On a container that reserves at least one slot, [DYNARR_PUSH] fails
    exactly when the buffer is full up to its end, the offset is smaller
    than the size and the allocator refuses the doubled block; then it
    returns -1 and leaves the container untouched.  Otherwise it returns the
    old size, the logical sequence gains the value at its end, and reading
    the returned index gives the value back. *)
Theorem push_appends (realloc : Z -> bool) (a : dynarr) (v : list byte) :
  inv a -> fits a -> grow_ok a -> value_of a v -> 0 < capa a ->
  (fst (DYNARR_PUSH realloc a v) = -1 <->
   offs a + size a = capa a /\ offs a < size a /\
   realloc (request (Int.mul (Int.mul (elem a) (capa a)) 2)) = false) /\
  (fst (DYNARR_PUSH realloc a v) = -1 -> snd (DYNARR_PUSH realloc a v) = a) /\
  (fst (DYNARR_PUSH realloc a v) <> -1 ->
   fst (DYNARR_PUSH realloc a v) = size a /\
   size (snd (DYNARR_PUSH realloc a v)) = size a + 1 /\
   contents (snd (DYNARR_PUSH realloc a v)) = contents a ++ [v] /\
   DYNARR_AT (snd (DYNARR_PUSH realloc a v)) (size a) = Some v /\
   inv (snd (DYNARR_PUSH realloc a v))).
Proof.
  intros Hi Hf Hg Hv Hpos. assert (Hi' := Hi). destruct Hi' as (Ho & Hs & Hc).
  destruct (push_result realloc a v Hi Hf Hg Hv Hpos) as
    [(Hr & Hi1 & Hf1 & He1 & Hs1 & Hc1) | (Hfail & Hfull & Hlt & Hre)].
  - split; [|split].
    + split; [intros H; lia|].
      intros (Hfull & Hlt & Hre).
      pose proof (grow_failure_eq realloc a Hi Hf Hfull Hlt Hre) as Hgf.
      rewrite push_eq, Hgf in Hr. cbn [fst snd Z.eqb] in Hr. lia.
    + intros H. lia.
    + intros _. split; [assumption|]. split; [assumption|]. split; [assumption|].
      split; [|assumption].
      rewrite at_eq by (try assumption; lia).
      rewrite elt_nth by lia. rewrite Hc1.
      rewrite app_nth2 by (rewrite contents_length; lia).
      rewrite contents_length, Nat.sub_diag. reflexivity.
  - rewrite Hfail. cbn [fst snd]. split; [|split].
    + split; [intros _; auto | reflexivity].
    + reflexivity.
    + intros H. contradiction.
Qed.

Lemma push_appends_witness :
  fst (DYNARR_PUSH alloc_fail unsorted4 (word x09)) = -1 /\
  contents (snd (DYNARR_PUSH alloc_ok unsorted4 (word x09))) =
    contents unsorted4 ++ [word x09].
Proof.
  assert (Hi : inv unsorted4) by (vm_compute; repeat split; intro; discriminate).
  assert (Hf : fits unsorted4) by (vm_compute; repeat split; intro; discriminate).
  assert (Hg : grow_ok unsorted4) by (intros _ _; vm_compute; intro; discriminate).
  assert (Hv : value_of unsorted4 (word x09)) by (vm_compute; reflexivity).
  assert (Hp : 0 < capa unsorted4) by (vm_compute; reflexivity).
  split.
  - apply (push_appends alloc_fail unsorted4 (word x09) Hi Hf Hg Hv Hp).
    vm_compute. repeat split.
  - destruct (push_appends alloc_ok unsorted4 (word x09) Hi Hf Hg Hv Hp) as (_ & _ & H).
    apply H. vm_compute. intro; discriminate.
Defined.

Lemma contents_shrink (a : dynarr) (s : Z) :
  0 <= s <= size a ->
  contents (set_size a s) = firstn (Z.to_nat s) (contents a).
Proof.
  intros Hs. apply contents_intro.
  - rewrite firstn_length_le by (rewrite contents_length; lia). reflexivity.
  - fields. intros k Hk. rewrite nth_firstn.
    replace (Nat.ltb k (Z.to_nat s)) with true by (symmetry; apply Nat.ltb_lt; lia).
    now rewrite contents_nth by lia.
Qed.

Lemma contents_last_split (a : dynarr) :
  0 < size a ->
  contents a = firstn (Z.to_nat (size a - 1)) (contents a) ++ [elt a (size a - 1)].
Proof.
  intros Hs. rewrite <- (firstn_skipn (Z.to_nat (size a - 1)) (contents a)) at 1.
  f_equal. rewrite (skipn_nth_cons _ _ _ []) by (rewrite contents_length; lia).
  rewrite <- elt_nth by lia. f_equal.
  apply skipn_all2. rewrite contents_length. lia.
Qed.

Lemma pop_contents (a : dynarr) :
  inv a -> fits a -> 0 < size a ->
  DYNARR_POP a = Some (elt a (size a - 1), set_size a (size a - 1)) /\
  contents a = contents (set_size a (size a - 1)) ++ [elt a (size a - 1)].
Proof.
  intros Hi Hf Hpos. assert (Hi' := Hi). destruct Hi' as (Ho & Hs & Hc). split.
  - rewrite pop_eq by assumption. now rewrite elt_slot by (try assumption; lia).
  - rewrite contents_shrink by lia. now apply contents_last_split.
Qed.

(** X4. [DYNARR_POP] aborts on an empty container; otherwise it returns the
    last element and leaves the elements before it, with offset and capacity
    unchanged. *)
Theorem pop_takes_last (a : dynarr) :
  inv a -> fits a ->
  (size a = 0 -> DYNARR_POP a = None) /\
  (0 < size a ->
   exists v a',
     DYNARR_POP a = Some (v, a') /\ contents a = contents a' ++ [v] /\
     size a' = size a - 1 /\ offs a' = offs a /\ capa a' = capa a /\ inv a').
Proof.
  intros Hi Hf. split.
  - intros H0. unfold DYNARR_POP, DARR_ASSERT. now rewrite H0.
  - intros Hpos. destruct (pop_contents a Hi Hf Hpos) as (He & Hc).
    exists (elt a (size a - 1)), (set_size a (size a - 1)).
    split; [exact He|]. split; [exact Hc|].
    unfold inv in *. fields. repeat split; lia.
Qed.

Lemma pop_takes_last_witness :
  exists a',
    DYNARR_POP unsorted4 = Some (tagged x01 x0d, a') /\
    contents a' = [tagged x02 x0a; tagged x01 x0b; tagged x02 x0c].
Proof.
  assert (Hi : inv unsorted4) by (vm_compute; repeat split; intro; discriminate).
  assert (Hf : fits unsorted4) by (vm_compute; repeat split; intro; discriminate).
  destruct (pop_takes_last unsorted4 Hi Hf) as (_ & H).
  destruct H as (v & a' & He & Hc & _); [vm_compute; reflexivity|].
  assert (Hl : contents unsorted4 =
               [tagged x02 x0a; tagged x01 x0b; tagged x02 x0c] ++ [tagged x01 x0d])
    by (vm_compute; reflexivity).
  rewrite Hc in Hl. apply app_inj_tail in Hl. destruct Hl as [Hl Hv].
  exists a'. split; [now rewrite He, Hv | exact Hl].
Defined.

(** X5. A successful [DYNARR_PUSH] followed by [DYNARR_POP] returns the
    value pushed and restores the logical sequence and the size. *)
Theorem push_pop_inverse (realloc : Z -> bool) (a : dynarr) (v : list byte) :
  inv a -> fits a -> grow_ok a -> value_of a v -> 0 < capa a ->
  fst (DYNARR_PUSH realloc a v) <> -1 ->
  exists a',
    DYNARR_POP (snd (DYNARR_PUSH realloc a v)) = Some (v, a') /\
    contents a' = contents a /\ size a' = size a.
Proof.
  intros Hi Hf Hg Hv Hpos Hok. assert (Hi' := Hi). destruct Hi' as (Ho & Hs & Hc).
  destruct (push_result realloc a v Hi Hf Hg Hv Hpos) as
    [(Hr & Hi1 & Hf1 & He1 & Hs1 & Hc1) | (Hfail & _)].
  2:{ rewrite Hfail in Hok. cbn [fst] in Hok. contradiction. }
  set (a1 := snd (DYNARR_PUSH realloc a v)) in *.
  destruct (pop_contents a1 Hi1 Hf1 ltac:(lia)) as (He & Hl).
  rewrite Hc1 in Hl. apply app_inj_tail in Hl. destruct Hl as [Hl Hlast].
  exists (set_size a1 (size a1 - 1)).
  split; [now rewrite He, <- Hlast|]. split; [now symmetry|].
  fields. lia.
Qed.

Lemma push_pop_inverse_witness :
  exists a',
    DYNARR_POP (snd (DYNARR_PUSH alloc_ok unsorted4 (word x09))) = Some (word x09, a') /\
    contents a' = contents unsorted4 /\ size a' = size unsorted4.
Proof.
  apply (push_pop_inverse alloc_ok unsorted4 (word x09)).
  - vm_compute; repeat split; intro; discriminate.
  - vm_compute; repeat split; intro; discriminate.
  - intros _ _; vm_compute; intro; discriminate.
  - vm_compute; reflexivity.
  - vm_compute; reflexivity.
  - vm_compute. intro; discriminate.
Defined.

Lemma dequeue_contents (a : dynarr) :
  inv a -> fits a -> 0 < size a ->
  DYNARR_DEQUEUE a =
    Some (elt a 0, set_offs (set_size a (size a - 1)) (offs a + 1)) /\
  contents a = elt a 0 :: contents (set_offs (set_size a (size a - 1)) (offs a + 1)).
Proof.
  intros Hi Hf Hpos. assert (Hi' := Hi). destruct Hi' as (Ho & Hs & Hc). split.
  - rewrite dequeue_eq by assumption. rewrite elt_slot by (try assumption; lia).
    now rewrite Z.add_0_r.
  - apply contents_intro.
    + cbn [length]. rewrite contents_length. fields. lia.
    + intros k Hk. destruct k as [|k]; [reflexivity|]. cbn [nth].
      rewrite contents_nth by (fields; lia).
      unfold elt, DARR_EPTR. fields.
      rewrite (add_small (offs a + 1) (Z.of_nat k))
        by (apply (index_range a); [assumption | lia]).
      rewrite (add_small (offs a) (Z.of_nat (S k)))
        by (apply (index_range a); [assumption | lia]).
      replace (offs a + 1 + Z.of_nat k) with (offs a + Z.of_nat (S k)) by lia.
      reflexivity.
Qed.

(** X6. [DYNARR_DEQUEUE] aborts on an empty container; otherwise it returns
    the first element and leaves the elements after it, by moving the offset
    up by one: no element is copied and the capacity is unchanged. *)
Theorem dequeue_takes_first (a : dynarr) :
  inv a -> fits a ->
  (size a = 0 -> DYNARR_DEQUEUE a = None) /\
  (0 < size a ->
   exists v a',
     DYNARR_DEQUEUE a = Some (v, a') /\ contents a = v :: contents a' /\
     size a' = size a - 1 /\ offs a' = offs a + 1 /\ capa a' = capa a /\
     data a' = data a /\ inv a').
Proof.
  intros Hi Hf. split.
  - intros H0. unfold DYNARR_DEQUEUE, DARR_ASSERT. now rewrite H0.
  - intros Hpos. destruct (dequeue_contents a Hi Hf Hpos) as (He & Hc).
    exists (elt a 0), (set_offs (set_size a (size a - 1)) (offs a + 1)).
    split; [exact He|]. split; [exact Hc|].
    unfold inv in *. fields. repeat split; lia.
Qed.

Lemma dequeue_takes_first_witness :
  exists a',
    DYNARR_DEQUEUE unsorted4 = Some (tagged x02 x0a, a') /\
    contents a' = [tagged x01 x0b; tagged x02 x0c; tagged x01 x0d].
Proof.
  assert (Hi : inv unsorted4) by (vm_compute; repeat split; intro; discriminate).
  assert (Hf : fits unsorted4) by (vm_compute; repeat split; intro; discriminate).
  destruct (dequeue_takes_first unsorted4 Hi Hf) as (_ & H).
  destruct H as (v & a' & He & Hc & _); [vm_compute; reflexivity|].
  assert (Hl : contents unsorted4 =
               tagged x02 x0a :: [tagged x01 x0b; tagged x02 x0c; tagged x01 x0d])
    by (vm_compute; reflexivity).
  rewrite Hc in Hl. injection Hl as Hv Hl.
  exists a'. split; [now rewrite He, Hv | exact Hl].
Defined.

(** ** A run of pushes *)

(** A push onto a container whose offset is 0, with an allocator that
    grants every request. *)
Lemma push_at_zero (a : dynarr) (v : list byte) :
  inv a -> fits a -> offs a = 0 -> 0 < capa a -> value_of a v ->
  (size a = capa a -> can_double a) ->
  fst (DYNARR_PUSH alloc_ok a v) = size a /\
  contents (snd (DYNARR_PUSH alloc_ok a v)) = contents a ++ [v] /\
  size (snd (DYNARR_PUSH alloc_ok a v)) = size a + 1 /\
  offs (snd (DYNARR_PUSH alloc_ok a v)) = 0 /\
  elem (snd (DYNARR_PUSH alloc_ok a v)) = elem a /\
  capa (snd (DYNARR_PUSH alloc_ok a v)) =
    (if size a =? capa a then 2 * capa a else capa a).
Proof.
  intros Hi Hf Ho0 Hpos Hv Hd. assert (Hi' := Hi). destruct Hi' as (Ho & Hs & Hc).
  rewrite push_eq.
  destruct (Z.eqb_spec (size a) (capa a)) as [Hfull|Hroom].
  - rewrite (grow_double_eq alloc_ok a) by (try assumption; auto; lia).
    unfold alloc_ok. cbn [fst snd Z.eqb].
    set (g := set_capa a (2 * capa a)).
    assert (Hig : inv g) by (unfold inv, g; fields; lia).
    assert (Hfg : fits g) by (unfold fits, g; fields; destruct Hf; split; [assumption | apply Hd; assumption]).
    destruct (append_slot_spec g v Hig Hfg) as [E1 E2];
      [unfold g; fields; lia | exact Hv |].
    rewrite E1, E2. unfold g. fields. rewrite contents_set_capa.
    repeat split; lia.
  - rewrite (grow_idle_eq alloc_ok a) by (try assumption; lia).
    cbn [fst snd Z.eqb].
    destruct (append_slot_spec a v Hi Hf) as [E1 E2]; [lia | exact Hv |].
    rewrite E1, E2. fields. repeat split; lia.
Qed.

Lemma push_all_from (e : Z) (vs : list (list byte)) :
  forall a : dynarr,
    inv a -> fits a -> offs a = 0 -> elem a = e -> 0 < capa a ->
    capa a <= Z.max 1 (2 * size a) ->
    Forall (fun v => Z.of_nat (length v) = e) vs ->
    e * (2 * (size a + Z.of_nat (length vs))) <= Int.INT_MAX ->
    contents (push_all alloc_ok a vs) = contents a ++ vs /\
    size (push_all alloc_ok a vs) = size a + Z.of_nat (length vs) /\
    offs (push_all alloc_ok a vs) = 0 /\
    inv (push_all alloc_ok a vs) /\
    capa (push_all alloc_ok a vs) <= Z.max 1 (2 * (size a + Z.of_nat (length vs))).
Proof.
  induction vs as [|v vs IH]; intros a Hi Hf Ho0 He Hpos Hcap Hvs Hb.
  - cbn [push_all fold_left length Z.of_nat]. rewrite app_nil_r, Z.add_0_r.
    repeat split; try assumption; apply Hi.
  - assert (Hi' := Hi). destruct Hi' as (Ho & Hs & Hc).
    inversion Hvs as [|? ? Hv Hvs']; subst.
    cbn [length] in Hb. rewrite Nat2Z.inj_succ in Hb.
    assert (Hd : size a = capa a -> can_double a).
    { intros Hfull. unfold can_double. destruct Hf as (Hep & _). nia. }
    destruct (push_at_zero a v Hi Hf Ho0 Hpos Hv Hd) as (_ & Pc & Ps & Po & Pe & Pcap).
    cbn [push_all fold_left]. fold (push_all alloc_ok (snd (DYNARR_PUSH alloc_ok a v)) vs).
    set (a1 := snd (DYNARR_PUSH alloc_ok a v)) in *.
    assert (Hcap1 : (capa a1 = capa a /\ size a < capa a) \/
                    (capa a1 = 2 * capa a /\ size a = capa a)).
    { rewrite Pcap. destruct (Z.eqb_spec (size a) (capa a)); [right | left]; lia. }
    assert (Hi1 : inv a1) by (unfold inv; rewrite Po, Ps; lia).
    assert (Hf1 : fits a1).
    { unfold fits. rewrite Pe. destruct Hf as (Hep & Hfc). split; [assumption|].
      destruct Hcap1 as [[-> _] | [-> Hfull]]; [assumption | nia]. }
    destruct (IH a1 Hi1 Hf1 Po Pe) as (Ic & Is & Io & Ii & Icap);
      [lia | lia | assumption | rewrite Ps; lia |].
    rewrite Ic, Is, Pc, Ps, <- app_assoc. cbn [app length].
    rewrite Nat2Z.inj_succ. repeat split; try assumption; try lia; apply Ii.
Qed.

(** X7. Pushing N values onto a freshly created container, with an
    allocator that grants every request, yields exactly those values in
    order: size N, offset 0, and a capacity of at most [max 1 (2 N)]. *)
Theorem push_all_fresh (zalloc : Z -> bool) (e : Z) (a : dynarr)
        (vs : list (list byte)) :
  0 < e <= Int.INT_MAX -> dynarrNew zalloc e = Some a ->
  Forall (fun v => Z.of_nat (length v) = e) vs ->
  e * (2 * Z.of_nat (length vs)) <= Int.INT_MAX ->
  contents (push_all alloc_ok a vs) = vs /\
  DYNARR_SIZE (push_all alloc_ok a vs) = Z.of_nat (length vs) /\
  offs (push_all alloc_ok a vs) = 0 /\
  inv (push_all alloc_ok a vs) /\
  capa (push_all alloc_ok a vs) <= Z.max 1 (2 * Z.of_nat (length vs)).
Proof.
  intros He Hnew Hvs Hb. unfold dynarrNew in Hnew.
  destruct (zalloc _); [|discriminate]. injection Hnew as <-.
  set (a := mkDynarr 1 e 0 0 (fun _ => x00)).
  assert (Hi : inv a) by (unfold inv, a; fields; lia).
  assert (Hf : fits a) by (unfold fits, a; fields; lia).
  destruct (push_all_from e vs a Hi Hf) as (Hc & Hs & Ho & Hin & Hcap);
    try reflexivity; try assumption; try (unfold a; fields; lia).
  unfold DYNARR_SIZE. rewrite Hc, Hs. unfold a at 1 2 3. fields.
  repeat split; try assumption; apply Hin.
Qed.

Lemma push_all_fresh_witness :
  contents (push_all alloc_ok fresh4 [word x05; word x03; word x08]) =
    [word x05; word x03; word x08] /\
  DYNARR_SIZE (push_all alloc_ok fresh4 [word x05; word x03; word x08]) = 3.
Proof.
  destruct (push_all_fresh alloc_ok 4 fresh4 [word x05; word x03; word x08])
    as (Hc & Hs & _).
  - unfold Int.INT_MAX. lia.
  - reflexivity.
  - repeat constructor.
  - vm_compute. intro; discriminate.
  - split; assumption.
Defined.

(** ** Inserting and removing in the middle *)

Lemma insert_tail_contents (a : dynarr) (i : Z) (v : list byte) :
  inv a -> fits a -> offs a + size a < capa a -> 0 <= i < size a -> value_of a v ->
  contents (insert_tail a i v) =
  firstn (Z.to_nat i) (contents a) ++ v :: skipn (Z.to_nat i) (contents a).
Proof.
  intros Hi Hf Hroom Hr Hv. assert (Hi' := Hi). destruct Hi' as (Ho & Hs & Hc).
  destruct (insert_tail_fields a i v Hi Hf Hroom Hr) as (Fs & _).
  apply contents_intro.
  - rewrite inserted_length by (rewrite contents_length; lia).
    rewrite contents_length, Fs. lia.
  - rewrite Fs. intros k Hk.
    rewrite nth_inserted by (rewrite contents_length; lia).
    rewrite insert_tail_elt by (try assumption; lia).
    destruct (Nat.ltb_spec k (Z.to_nat i)) as [Hlt|Hge].
    + replace (Z.of_nat k <? i) with true by (symmetry; apply Z.ltb_lt; lia).
      now rewrite contents_nth by lia.
    + replace (Z.of_nat k <? i) with false by (symmetry; apply Z.ltb_ge; lia).
      destruct (Nat.eqb_spec k (Z.to_nat i)) as [->|Hne].
      * now replace (Z.of_nat (Z.to_nat i) =? i) with true
          by (symmetry; apply Z.eqb_eq; lia).
      * replace (Z.of_nat k =? i) with false by (symmetry; apply Z.eqb_neq; lia).
        rewrite contents_nth by lia. f_equal. lia.
Qed.

(** X8. [DYNARR_INSERT] aborts on every index outside [0, size), the index
    [size] included.  On a valid index a successful insertion returns the
    index, puts the value there and moves the elements from that index on up
    by one, keeping their order. *)
Theorem insert_places (realloc : Z -> bool) (a : dynarr) (i : Z) (v : list byte) :
  inv a -> fits a -> grow_ok a -> value_of a v ->
  (~ (0 <= i < size a) -> DYNARR_INSERT realloc a i v = None) /\
  (0 <= i < size a ->
   exists r a',
     DYNARR_INSERT realloc a i v = Some (r, a') /\
     (r <> -1 ->
      r = i /\ size a' = size a + 1 /\
      contents a' =
        firstn (Z.to_nat i) (contents a) ++ v :: skipn (Z.to_nat i) (contents a) /\
      inv a')).
Proof.
  intros Hi Hf Hg Hv. split.
  - intros Hno. unfold DYNARR_INSERT, DARR_ASSERT.
    destruct (DYNARR_VALID a i) eqn:E; [|reflexivity].
    apply valid_iff in E. contradiction.
  - intros Hr. assert (Hi' := Hi). destruct Hi' as (Ho & Hs & Hc).
    rewrite insert_eq by assumption.
    destruct (grow_result realloc a Hi Hf Hg) as
      [(Hr0 & Hi1 & Hf1 & He1 & Hs1 & Hc1 & Hcap1 & Hroom) | (Hfail & _)].
    + rewrite Hr0. cbn [Z.eqb].
      set (g := snd (dynarrGrow realloc a)) in *.
      assert (Hroom' : offs g + size g < capa g) by (apply Hroom; lia).
      assert (Hrg : 0 <= i < size g) by lia.
      assert (Hvg : value_of g v) by (unfold value_of in *; congruence).
      destruct (insert_tail_fields g i v Hi1 Hf1 Hroom' Hrg) as (Fs & Fo & Fc & _).
      exists i, (insert_tail g i v). split; [reflexivity|]. intros _.
      split; [reflexivity|]. split; [lia|]. split.
      * rewrite insert_tail_contents by assumption. now rewrite Hc1.
      * unfold inv in *. rewrite Fs, Fo, Fc. lia.
    + rewrite Hfail. cbn [fst snd Z.eqb]. exists (-1), a.
      split; [reflexivity|]. intros H. contradiction.
Qed.

Lemma insert_places_witness :
  DYNARR_INSERT alloc_ok unsorted4 4 (word x09) = None /\
  exists r a',
    DYNARR_INSERT alloc_ok unsorted4 1 (word x09) = Some (r, a') /\
    (r <> -1 ->
     r = 1 /\
     contents a' = [tagged x02 x0a; word x09; tagged x01 x0b; tagged x02 x0c;
                    tagged x01 x0d]).
Proof.
  assert (Hi : inv unsorted4) by (vm_compute; repeat split; intro; discriminate).
  assert (Hf : fits unsorted4) by (vm_compute; repeat split; intro; discriminate).
  assert (Hg : grow_ok unsorted4) by (intros _ _; vm_compute; intro; discriminate).
  assert (Hv : value_of unsorted4 (word x09)) by (vm_compute; reflexivity).
  split.
  - apply (insert_places alloc_ok unsorted4 4 (word x09) Hi Hf Hg Hv).
    vm_compute. intros [_ H]. discriminate.
  - destruct (insert_places alloc_ok unsorted4 1 (word x09) Hi Hf Hg Hv) as (_ & H).
    destruct H as (r & a' & He & Hok);
      [vm_compute; split; [intro; discriminate | reflexivity]|].
    exists r, a'. split; [exact He|]. intros Hne.
    destruct (Hok Hne) as (Hr & _ & Hc & _). split; [exact Hr|].
    rewrite Hc. vm_compute. reflexivity.
Defined.

Lemma remove_contents (a a' : dynarr) (i : Z) :
  inv a -> fits a -> 0 <= i < size a -> DYNARR_REMOVE a i = Some a' ->
  contents a' =
  firstn (Z.to_nat i) (contents a) ++ skipn (S (Z.to_nat i)) (contents a).
Proof.
  intros Hi Hf Hr Hrm. assert (Hi' := Hi). destruct Hi' as (Ho & Hs & Hc).
  destruct (remove_fields a a' i Hi Hf Hr Hrm) as (Rs & _).
  apply contents_intro.
  - rewrite deleted_length by (rewrite contents_length; lia).
    rewrite contents_length, Rs. lia.
  - rewrite Rs. intros k Hk.
    rewrite nth_deleted by (rewrite contents_length; lia).
    rewrite (remove_elt a a' i (Z.of_nat k) Hi Hf Hr Hrm) by lia.
    destruct (Nat.ltb_spec k (Z.to_nat i)) as [Hlt|Hge].
    + replace (Z.of_nat k <? i) with true by (symmetry; apply Z.ltb_lt; lia).
      now rewrite contents_nth by lia.
    + replace (Z.of_nat k <? i) with false by (symmetry; apply Z.ltb_ge; lia).
      rewrite contents_nth by lia. f_equal. lia.
Qed.

(** X9. [DYNARR_REMOVE] aborts on every index outside [0, size).  On a
    valid index it deletes that element and moves the later ones down by
    one, keeping their order; offset and capacity are unchanged. *)
Theorem remove_deletes (a : dynarr) (i : Z) :
  inv a -> fits a ->
  (~ (0 <= i < size a) -> DYNARR_REMOVE a i = None) /\
  (0 <= i < size a ->
   exists a',
     DYNARR_REMOVE a i = Some a' /\
     contents a' =
       firstn (Z.to_nat i) (contents a) ++ skipn (S (Z.to_nat i)) (contents a) /\
     size a' = size a - 1 /\ offs a' = offs a /\ capa a' = capa a /\ inv a').
Proof.
  intros Hi Hf. split.
  - intros Hno. unfold DYNARR_REMOVE, DARR_ASSERT.
    destruct (DYNARR_VALID a i) eqn:E; [|reflexivity].
    apply valid_iff in E. contradiction.
  - intros Hr. destruct (DYNARR_REMOVE a i) as [a'|] eqn:Hrm.
    2:{ rewrite remove_eq in Hrm by assumption. discriminate. }
    destruct (remove_fields a a' i Hi Hf Hr Hrm) as (Rs & Ro & Rc & _).
    exists a'. split; [reflexivity|].
    split; [now apply (remove_contents a a' i)|].
    unfold inv in *. rewrite Rs, Ro, Rc. repeat split; lia.
Qed.

Lemma remove_deletes_witness :
  DYNARR_REMOVE unsorted4 (-1) = None /\
  exists a',
    DYNARR_REMOVE unsorted4 1 = Some a' /\
    contents a' = [tagged x02 x0a; tagged x02 x0c; tagged x01 x0d].
Proof.
  assert (Hi : inv unsorted4) by (vm_compute; repeat split; intro; discriminate).
  assert (Hf : fits unsorted4) by (vm_compute; repeat split; intro; discriminate).
  split.
  - apply (remove_deletes unsorted4 (-1) Hi Hf). intros [H _]. lia.
  - destruct (remove_deletes unsorted4 1 Hi Hf) as (_ & H).
    destruct H as (a' & He & Hc & _);
      [vm_compute; split; [intro; discriminate | reflexivity]|].
    exists a'. split; [exact He|]. rewrite Hc. vm_compute. reflexivity.
Defined.

(** ** The order-breaking variants *)

Lemma elt_value (a : dynarr) (i : Z) : 0 <= elem a -> value_of a (elt a i).
Proof. intros He. unfold value_of. rewrite elt_length. lia. Qed.

Lemma shove_tail_eq (a : dynarr) (i : Z) (v : list byte) :
  inv a -> fits a -> offs a + size a < capa a -> 0 <= i < size a ->
  shove_tail a i v =
  slot_set (set_size (slot_set a (offs a + size a) (elt a i)) (size a + 1))
           (offs a + i) v.
Proof.
  intros (Ho & Hs & Hc) Hf Hroom Hr. unfold shove_tail, slot_get, elt. fields.
  rewrite (add_small (offs a) (size a)) by (apply (index_range a); [assumption | lia]).
  rewrite (add_small (offs a) i) by (apply (index_range a); [assumption | lia]).
  rewrite (add_small (size a) 1) by (apply (index_range a); [assumption | lia]).
  rewrite EPTR_eq by (try assumption; lia). reflexivity.
Qed.

Lemma shove_tail_contents (a : dynarr) (i : Z) (v : list byte) :
  inv a -> fits a -> offs a + size a < capa a -> 0 <= i < size a -> value_of a v ->
  contents (shove_tail a i v) =
  (firstn (Z.to_nat i) (contents a) ++ v :: skipn (S (Z.to_nat i)) (contents a))
  ++ [nth (Z.to_nat i) (contents a) []].
Proof.
  intros Hi Hf Hroom Hr Hv. assert (Hi' := Hi). destruct Hi' as (Ho & Hs & Hc).
  rewrite shove_tail_eq by assumption.
  assert (He : 0 <= elem a) by (destruct Hf; lia).
  destruct (append_slot_spec a (elt a i) Hi Hf Hroom (elt_value a i He)) as [_ E2].
  set (p := set_size (slot_set a (offs a + size a) (elt a i)) (size a + 1)) in *.
  assert (Hip : inv p) by (unfold inv, p; fields; lia).
  change (slot_set p (offs a + i) v) with (slot_set p (offs p + i) v).
  rewrite (assign_contents p i v Hip) by (unfold p; fields; try assumption; lia).
  rewrite E2, (elt_nth a i) by lia.
  assert (Hlen : length (contents a) = Z.to_nat (size a)) by apply contents_length.
  rewrite firstn_app, skipn_app.
  replace (Z.to_nat i - length (contents a))%nat with 0%nat by lia.
  replace (S (Z.to_nat i) - length (contents a))%nat with 0%nat by lia.
  cbn [firstn skipn]. rewrite app_nil_r, <- app_assoc. reflexivity.
Qed.

(** X10. [DYNARR_SHOVE] aborts on every index outside [0, size).  On a valid
    index a successful call returns the index, puts the value there and
    moves the element that was there to the end; all other elements keep
    their place, so the new sequence is a permutation of the old one
    extended by the value. *)
Theorem shove_places (realloc : Z -> bool) (a : dynarr) (i : Z) (v : list byte) :
  inv a -> fits a -> grow_ok a -> value_of a v ->
  (~ (0 <= i < size a) -> DYNARR_SHOVE realloc a i v = None) /\
  (0 <= i < size a ->
   exists r a',
     DYNARR_SHOVE realloc a i v = Some (r, a') /\
     (r <> -1 ->
      r = i /\ size a' = size a + 1 /\
      contents a' =
        (firstn (Z.to_nat i) (contents a) ++ v :: skipn (S (Z.to_nat i)) (contents a))
        ++ [nth (Z.to_nat i) (contents a) []] /\
      Permutation (v :: contents a) (contents a') /\
      inv a')).
Proof.
  intros Hi Hf Hg Hv. split.
  - intros Hno. unfold DYNARR_SHOVE, DARR_ASSERT.
    destruct (DYNARR_VALID a i) eqn:E; [|reflexivity].
    apply valid_iff in E. contradiction.
  - intros Hr. assert (Hi' := Hi). destruct Hi' as (Ho & Hs & Hc).
    rewrite shove_eq by assumption.
    destruct (grow_result realloc a Hi Hf Hg) as
      [(Hr0 & Hi1 & Hf1 & He1 & Hs1 & Hc1 & Hcap1 & Hroom) | (Hfail & _)].
    + rewrite Hr0. cbn [Z.eqb].
      set (g := snd (dynarrGrow realloc a)) in *.
      assert (Hroom' : offs g + size g < capa g) by (apply Hroom; lia).
      assert (Hrg : 0 <= i < size g) by lia.
      assert (Hvg : value_of g v) by (unfold value_of in *; congruence).
      destruct (shove_tail_fields g i v Hi1 Hf1 Hroom') as (Fs & Fo & Fc & _).
      exists i, (shove_tail g i v). split; [reflexivity|]. intros _.
      split; [reflexivity|]. split; [lia|].
      assert (Hcs : contents (shove_tail g i v) =
                    (firstn (Z.to_nat i) (contents a) ++
                     v :: skipn (S (Z.to_nat i)) (contents a))
                    ++ [nth (Z.to_nat i) (contents a) []])
        by (rewrite shove_tail_contents by assumption; now rewrite Hc1).
      split; [exact Hcs|]. split.
      * rewrite Hcs. apply splice_perm. rewrite contents_length. lia.
      * unfold inv in *. rewrite Fs, Fo, Fc. lia.
    + rewrite Hfail. cbn [fst snd Z.eqb]. exists (-1), a.
      split; [reflexivity|]. intros H. contradiction.
Qed.

Lemma shove_places_witness :
  exists r a',
    DYNARR_SHOVE alloc_ok unsorted4 1 (word x09) = Some (r, a') /\
    (r <> -1 ->
     r = 1 /\
     contents a' = [tagged x02 x0a; word x09; tagged x02 x0c; tagged x01 x0d;
                    tagged x01 x0b]).
Proof.
  assert (Hi : inv unsorted4) by (vm_compute; repeat split; intro; discriminate).
  assert (Hf : fits unsorted4) by (vm_compute; repeat split; intro; discriminate).
  assert (Hg : grow_ok unsorted4) by (intros _ _; vm_compute; intro; discriminate).
  assert (Hv : value_of unsorted4 (word x09)) by (vm_compute; reflexivity).
  destruct (shove_places alloc_ok unsorted4 1 (word x09) Hi Hf Hg Hv) as (_ & H).
  destruct H as (r & a' & He & Hok);
    [vm_compute; split; [intro; discriminate | reflexivity]|].
  exists r, a'. split; [exact He|]. intros Hne.
  destruct (Hok Hne) as (Hr & _ & Hc & _). split; [exact Hr|].
  rewrite Hc. vm_compute. reflexivity.
Defined.

Lemma ditch_contents (a : dynarr) (i : Z) :
  inv a -> fits a -> 0 <= i < size a ->
  DYNARR_DITCH a i =
    Some (slot_set (set_size a (size a - 1)) (offs a + i) (elt a (size a - 1))) /\
  contents (slot_set (set_size a (size a - 1)) (offs a + i) (elt a (size a - 1))) =
    (if i =? size a - 1 then firstn (Z.to_nat (size a - 1)) (contents a)
     else firstn (Z.to_nat i) (firstn (Z.to_nat (size a - 1)) (contents a))
          ++ elt a (size a - 1)
          :: skipn (S (Z.to_nat i)) (firstn (Z.to_nat (size a - 1)) (contents a))).
Proof.
  intros Hi Hf Hr. assert (Hi' := Hi). destruct Hi' as (Ho & Hs & Hc).
  assert (He : 0 <= elem a) by (destruct Hf; lia).
  split.
  - rewrite ditch_eq by assumption. now rewrite elt_slot by (try assumption; lia).
  - set (p := set_size a (size a - 1)).
    assert (Hip : inv p) by (unfold inv, p; fields; lia).
    assert (Hfp : fits p) by exact Hf.
    assert (Hcp : contents p = firstn (Z.to_nat (size a - 1)) (contents a))
      by (apply contents_shrink; lia).
    change (slot_set p (offs a + i) (elt a (size a - 1)))
      with (slot_set p (offs p + i) (elt a (size a - 1))).
    destruct (Z.eqb_spec i (size a - 1)) as [Hlast|Hmid].
    + rewrite <- Hcp. symmetry. apply contents_ext; [reflexivity|].
      intros k Hk. rewrite slot_set_elt;
        try assumption; try (unfold p in *; fields; lia);
        [|apply (elt_value a (size a - 1) He)].
      now replace (k =? i) with false
        by (symmetry; apply Z.eqb_neq; unfold p in Hk; fields; lia).
    + rewrite (assign_contents p i (elt a (size a - 1)) Hip Hfp)
        by (try (unfold p; fields; lia); apply (elt_value a (size a - 1) He)).
      now rewrite Hcp.
Qed.

(** X11. [DYNARR_DITCH] aborts on every index outside [0, size).  On a valid
    index it removes that element by overwriting it with the last one and
    dropping the last slot: the elements left are a permutation of the old
    ones without the removed element, and offset and capacity are
    unchanged. *)
Theorem ditch_removes (a : dynarr) (i : Z) :
  inv a -> fits a ->
  (~ (0 <= i < size a) -> DYNARR_DITCH a i = None) /\
  (0 <= i < size a ->
   exists a',
     DYNARR_DITCH a i = Some a' /\
     size a' = size a - 1 /\ offs a' = offs a /\ capa a' = capa a /\
     Permutation (contents a) (nth (Z.to_nat i) (contents a) [] :: contents a') /\
     (i < size a - 1 ->
      DYNARR_AT a' i = Some (nth (Z.to_nat (size a - 1)) (contents a) []))).
Proof.
  intros Hi Hf. split.
  - intros Hno. unfold DYNARR_DITCH, DARR_ASSERT.
    destruct (DYNARR_VALID a i) eqn:E; [|reflexivity].
    apply valid_iff in E. contradiction.
  - intros Hr. assert (Hi' := Hi). destruct Hi' as (Ho & Hs & Hc).
    destruct (ditch_contents a i Hi Hf Hr) as (He & Hcs).
    set (a' := slot_set (set_size a (size a - 1)) (offs a + i) (elt a (size a - 1))) in *.
    exists a'. split; [exact He|].
    do 3 (split; [reflexivity|]).
    assert (Hlen : length (contents a) = Z.to_nat (size a)) by apply contents_length.
    pose proof (contents_last_split a ltac:(lia)) as Hsplit.
    set (lp := firstn (Z.to_nat (size a - 1)) (contents a)) in *.
    assert (Hlp : length lp = Z.to_nat (size a - 1))
      by (unfold lp; rewrite firstn_length_le; lia).
    split.
    + rewrite Hcs. destruct (Z.eqb_spec i (size a - 1)) as [Hlast|Hmid].
      * rewrite <- elt_nth by lia. rewrite Hlast.
        rewrite Hsplit at 1. symmetry. apply Permutation_cons_append.
      * assert (Hnth : nth (Z.to_nat i) (contents a) [] = nth (Z.to_nat i) lp []).
        { unfold lp. rewrite nth_firstn.
          now replace (Nat.ltb (Z.to_nat i) (Z.to_nat (size a - 1))) with true
            by (symmetry; apply Nat.ltb_lt; lia). }
        rewrite Hnth, Hsplit at 1.
        apply Permutation_trans with (elt a (size a - 1) :: lp);
          [symmetry; apply Permutation_cons_append|].
        apply Permutation_trans with
          ((firstn (Z.to_nat i) lp ++ elt a (size a - 1) :: skipn (S (Z.to_nat i)) lp)
           ++ [nth (Z.to_nat i) lp []]).
        -- apply splice_perm. lia.
        -- symmetry. apply Permutation_cons_append.
    + intros Hmid.
      assert (Hia' : inv a') by (unfold inv, a'; fields; lia).
      rewrite at_eq by (try assumption; unfold a'; fields; lia).
      rewrite elt_nth by (unfold a'; fields; lia).
      rewrite Hcs.
      replace (i =? size a - 1) with false by (symmetry; apply Z.eqb_neq; lia).
      rewrite nth_splice by lia. rewrite Nat.eqb_refl.
      now rewrite elt_nth by lia.
Qed.

Lemma ditch_removes_witness :
  exists a',
    DYNARR_DITCH unsorted4 0 = Some a' /\ size a' = 3 /\
    DYNARR_AT a' 0 = Some (tagged x01 x0d).
Proof.
  assert (Hi : inv unsorted4) by (vm_compute; repeat split; intro; discriminate).
  assert (Hf : fits unsorted4) by (vm_compute; repeat split; intro; discriminate).
  destruct (ditch_removes unsorted4 0 Hi Hf) as (_ & H).
  destruct H as (a' & He & Hs & _ & _ & _ & Hat);
    [vm_compute; split; [intro; discriminate | reflexivity]|].
  exists a'. split; [exact He|]. split; [rewrite Hs; vm_compute; reflexivity|].
  rewrite Hat by (vm_compute; reflexivity). vm_compute. reflexivity.
Defined.

(** ** Shrinking, reserving and clearing *)

(** X12. [dynarrResize] to a smaller size never consults the allocator: it
    keeps the first [s] elements (none when [s <= 0]), returns the new size
    and leaves the capacity and the element bytes as they are; the offset is
    reset only when the container becomes empty.  A resize to the current
    size changes nothing. *)
Theorem resize_truncates (a : dynarr) (s : Z) :
  inv a ->
  (s < size a ->
   exists a',
     (forall realloc, dynarrResize realloc a s = (Z.max 0 s, a')) /\
     contents a' = firstn (Z.to_nat s) (contents a) /\
     size a' = Z.max 0 s /\ capa a' = capa a /\ data a' = data a /\
     offs a' = (if 0 <? s then offs a else 0)) /\
  (s = size a -> forall realloc, dynarrResize realloc a s = (size a, a)).
Proof.
  intros (Ho & Hs & Hc). split.
  - intros Hlt. destruct (Z.ltb_spec 0 s) as [Hpos|Hneg].
    + exists (set_size a s). split.
      * intros realloc. rewrite resize_shrink_eq by assumption.
        replace (0 <? s) with true by (symmetry; apply Z.ltb_lt; lia).
        now rewrite Z.max_r by lia.
      * split; [apply contents_shrink; lia|]. fields.
        split; [lia|]. now do 2 (split; [reflexivity|]).
    + exists (set_offs (set_size a 0) 0). split.
      * intros realloc. rewrite resize_shrink_eq by assumption.
        replace (0 <? s) with false by (symmetry; apply Z.ltb_ge; lia).
        now rewrite Z.max_l by lia.
      * split.
        -- replace (Z.to_nat s) with 0%nat by lia. reflexivity.
        -- fields. split; [lia|]. now do 2 (split; [reflexivity|]).
  - intros -> realloc. unfold dynarrResize. rewrite Z.ltb_irrefl.
    now replace (size a >? size a) with false
      by (symmetry; rewrite Z.gtb_ltb; apply Z.ltb_irrefl).
Qed.

Lemma resize_truncates_witness :
  exists a',
    (forall realloc, dynarrResize realloc unsorted4 2 = (2, a')) /\
    contents a' = [tagged x02 x0a; tagged x01 x0b] /\ capa a' = 4.
Proof.
  assert (Hi : inv unsorted4) by (vm_compute; repeat split; intro; discriminate).
  destruct (resize_truncates unsorted4 2 Hi) as (H & _).
  destruct H as (a' & He & Hc & _ & Hcap & _); [vm_compute; reflexivity|].
  exists a'. split; [exact He|].
  split; [rewrite Hc | rewrite Hcap]; vm_compute; reflexivity.
Defined.



(** X14. Reserving with [dynarrCapacity] pays for the pushes that follow:
    after a successful call with a capacity above the size, the next
    [DYNARR_PUSH] succeeds whatever the allocator would answer. *)
Theorem reserve_then_push (realloc realloc' : Z -> bool) (a : dynarr) (c : Z)
        (v : list byte) :
  inv a -> fits a -> size a < c -> elem a * c <= Int.INT_MAX -> value_of a v ->
  fst (dynarrCapacity realloc a c) <> -1 ->
  fst (DYNARR_PUSH realloc' (snd (dynarrCapacity realloc a c)) v) = size a /\
  contents (snd (DYNARR_PUSH realloc' (snd (dynarrCapacity realloc a c)) v)) =
    contents a ++ [v].
Proof.
  intros Hi Hf Hlt Hb Hv Hok. assert (Hi' := Hi). destruct Hi' as (Ho & Hs & Hc).
  destruct (compact_fields a) as (Hco & Hcs & Hcc & Hce).
  assert (Hmax : Z.max c (size a) = c) by lia.
  assert (Hstate : exists b, snd (dynarrCapacity realloc a c) = b /\
                             inv b /\ fits b /\ offs b = 0 /\ size b = size a /\
                             capa b = c /\ elem b = elem a /\ contents b = contents a).
  { rewrite capacity_eq in *. rewrite Hmax in *.
    destruct (Z.eqb_spec c (capa a)) as [Heq|Hne].
    - exists (compact a). split; [reflexivity|].
      split; [now apply compact_inv|]. split; [now apply compact_fits|].
      repeat split; try assumption; try lia. now apply compact_contents.
    - destruct (realloc _); [|cbn [fst] in Hok; contradiction].
      exists (set_capa (compact a) c). split; [reflexivity|].
      unfold inv, fits. fields. rewrite contents_set_capa, Hco, Hcs, Hce.
      pose proof (compact_contents a Hi Hf) as Hcc'.
      destruct Hf as (He & _).
      repeat split; try assumption; lia. }
  destruct Hstate as (b & -> & Hib & Hfb & Hob & Hsb & Hcb & Heb & Hlb).
  assert (Hgb : grow_ok b) by (intros Hfull _; lia).
  assert (Hvb : value_of b v) by (unfold value_of in *; congruence).
  destruct (push_result realloc' b v Hib Hfb Hgb Hvb ltac:(lia)) as
    [(Hr & _ & _ & _ & _ & Hl) | (_ & Hfull & _)]; [|lia].
  now rewrite Hr, Hl, Hsb, Hlb.
Qed.

Lemma reserve_then_push_witness :
  fst (DYNARR_PUSH alloc_fail (snd (dynarrCapacity alloc_ok unsorted4 8)) (word x09)) = 4 /\
  contents (snd (DYNARR_PUSH alloc_fail (snd (dynarrCapacity alloc_ok unsorted4 8))
                             (word x09))) =
    [tagged x02 x0a; tagged x01 x0b; tagged x02 x0c; tagged x01 x0d; word x09].
Proof.
  destruct (reserve_then_push alloc_ok alloc_fail unsorted4 8 (word x09)) as (Hr & Hc).
  - vm_compute; repeat split; intro; discriminate.
  - vm_compute; repeat split; intro; discriminate.
  - vm_compute; reflexivity.
  - vm_compute; intro; discriminate.
  - vm_compute; reflexivity.
  - vm_compute. intro; discriminate.
  - split; [rewrite Hr | rewrite Hc]; vm_compute; reflexivity.
Defined.

(** X15. [DYNARR_CLEAR] empties the container and keeps its storage: the
    capacity is unchanged, and on a container that reserves a slot the next
    [DYNARR_PUSH] succeeds at index 0 whatever the allocator would answer. *)
Theorem clear_keeps_storage (realloc : Z -> bool) (a : dynarr) (v : list byte) :
  inv a -> fits a -> value_of a v -> 0 < capa a ->
  contents (DYNARR_CLEAR a) = [] /\ capa (DYNARR_CLEAR a) = capa a /\
  inv (DYNARR_CLEAR a) /\
  fst (DYNARR_PUSH realloc (DYNARR_CLEAR a) v) = 0 /\
  contents (snd (DYNARR_PUSH realloc (DYNARR_CLEAR a) v)) = [v].
Proof.
  intros Hi Hf Hv Hpos. assert (Hi' := Hi). destruct Hi' as (Ho & Hs & Hc).
  set (b := DYNARR_CLEAR a).
  assert (Hib : inv b) by (unfold inv, b, DYNARR_CLEAR; fields; lia).
  assert (Hfb : fits b) by exact Hf.
  assert (Hgb : grow_ok b) by (intros Hfull _; unfold b, DYNARR_CLEAR in Hfull; fields; lia).
  split; [reflexivity|]. split; [reflexivity|]. split; [exact Hib|].
  destruct (push_result realloc b v Hib Hfb Hgb Hv Hpos) as
    [(Hr & _ & _ & _ & _ & Hl) | (_ & Hfull & _)].
  - rewrite Hr, Hl. split; reflexivity.
  - unfold b, DYNARR_CLEAR in Hfull. fields. lia.
Qed.

Lemma clear_keeps_storage_witness :
  contents (DYNARR_CLEAR unsorted4) = [] /\ capa (DYNARR_CLEAR unsorted4) = 4 /\
  contents (snd (DYNARR_PUSH alloc_fail (DYNARR_CLEAR unsorted4) (word x2a))) =
    [word x2a].
Proof.
  destruct (clear_keeps_storage alloc_fail unsorted4 (word x2a)) as
    (Hc & Hcap & _ & _ & Hl).
  - vm_compute; repeat split; intro; discriminate.
  - vm_compute; repeat split; intro; discriminate.
  - vm_compute; reflexivity.
  - vm_compute; reflexivity.
  - split; [exact Hc|]. split; [rewrite Hcap; vm_compute; reflexivity | exact Hl].
Defined.

(** ** Sorting what is sorted *)

Lemma sort_inner_idle (comp : list byte -> list byte -> Z) (a : dynarr)
      (n : nat) (j : Z) :
  inv a -> fits a -> 1 <= j < size a ->
  comp (elt a (j - 1)) (elt a j) <= 0 ->
  sort_inner comp a n j = a.
Proof.
  intros (Ho & Hs & Hc) Hf Hj Hle. destruct n as [|n]; [reflexivity|].
  cbn [sort_inner].
  rewrite (sub_small j 1) by (apply (index_range a); [assumption | lia]).
  replace (comp (elt a (j - 1)) (elt a j) >? 0) with false
    by (symmetry; rewrite Z.gtb_ltb; apply Z.ltb_ge; lia).
  now rewrite andb_false_r.
Qed.

Lemma sort_outer_idle (comp : list byte -> list byte -> Z) (a : dynarr) (n : nat) :
  inv a -> fits a ->
  (forall i, 0 <= i < size a - 1 -> comp (elt a i) (elt a (i + 1)) <= 0) ->
  forall j, 1 <= j -> sort_outer comp a n j = a.
Proof.
  intros Hi Hf Hsorted. assert (Hi' := Hi). destruct Hi' as (Ho & Hs & Hc).
  induction n as [|n IH]; intros j Hj; [reflexivity|].
  cbn [sort_outer]. destruct (Z.ltb_spec j (size a)) as [Hlt|Hge]; [|reflexivity].
  rewrite sort_inner_idle; try assumption; try lia.
  - rewrite (add_small j 1) by (apply (index_range a); [assumption | lia]).
    apply IH. lia.
  - replace j with (j - 1 + 1) at 2 by lia. apply Hsorted. lia.
Qed.

(** X16. On a container whose adjacent elements are already in order,
    [dynarrSortInsert] exchanges nothing: it leaves the container, element
    bytes included, exactly as it was. *)
Theorem sort_sorted_untouched (comp : list byte -> list byte -> Z) (a : dynarr) :
  inv a -> fits a ->
  (forall i, 0 <= i < size a - 1 -> comp (elt a i) (elt a (i + 1)) <= 0) ->
  dynarrSortInsert a comp = a.
Proof.
  intros Hi Hf Hsorted. unfold dynarrSortInsert.
  apply sort_outer_idle; try assumption. lia.
Qed.

Lemma sort_sorted_untouched_witness :
  dynarrSortInsert (pushed [word x01; word x03; word x03; word x08]) by_first_byte
  = pushed [word x01; word x03; word x03; word x08].
Proof.
  apply sort_sorted_untouched.
  - vm_compute; repeat split; intro; discriminate.
  - vm_compute; repeat split; intro; discriminate.
  - intros i Hr.
    assert (Hs : size (pushed [word x01; word x03; word x03; word x08]) = 4)
      by (vm_compute; reflexivity).
    rewrite Hs in Hr.
    assert (Hc : i = 0 \/ i = 1 \/ i = 2) by lia.
    destruct Hc as [-> | [-> | ->]]; vm_compute; intro; discriminate.
Defined.

Lemma sort_adjacent (comp : list byte -> list byte -> Z) (a : dynarr) :
  inv a -> fits a -> total_order comp ->
  forall i, 0 <= i < size a - 1 ->
            comp (elt (dynarrSortInsert a comp) i)
                 (elt (dynarrSortInsert a comp) (i + 1)) <= 0.
Proof.
  intros Hi Hf Ht i Hr. destruct (sort_contents comp a Hi Hf) as (Hc & Hs & _).
  assert (Hd : desc comp (sift_all comp (contents a) []))
    by (apply sift_all_desc; [assumption | exact I]).
  assert (Hlen : length (sift_all comp (contents a) []) = Z.to_nat (size a)).
  { rewrite <- (length_rev (sift_all comp (contents a) [])), <- Hc, contents_length.
    now rewrite Hs. }
  replace i with (Z.of_nat (Z.to_nat i)) by lia.
  replace (Z.of_nat (Z.to_nat i) + 1) with (Z.of_nat (S (Z.to_nat i))) by lia.
  rewrite <- !(contents_nth _ _ []) by (rewrite Hs; lia).
  rewrite Hc. apply desc_rev_adjacent; [assumption | lia].
Qed.

(** X17. [dynarrSortInsert] is idempotent: sorting a second time with the
    same consistent total order changes nothing. *)
Theorem sort_idempotent (comp : list byte -> list byte -> Z) (a : dynarr) :
  inv a -> fits a -> total_order comp ->
  dynarrSortInsert (dynarrSortInsert a comp) comp = dynarrSortInsert a comp.
Proof.
  intros Hi Hf Ht. destruct (sort_contents comp a Hi Hf) as (_ & Hh).
  unfold dynarrSortInsert at 1.
  apply sort_outer_idle.
  - exact (same_header_inv _ _ Hh Hi).
  - exact (same_header_fits _ _ Hh Hf).
  - intros i Hr. destruct Hh as (Hs & _). rewrite Hs in Hr.
    now apply sort_adjacent.
  - lia.
Qed.

Lemma sort_idempotent_witness :
  dynarrSortInsert (dynarrSortInsert unsorted4 by_first_byte) by_first_byte
  = dynarrSortInsert unsorted4 by_first_byte.
Proof.
  apply sort_idempotent.
  - vm_compute; repeat split; intro; discriminate.
  - vm_compute; repeat split; intro; discriminate.
  - exact by_first_byte_total.
Defined.

(** ** Finding what was pushed *)

(** X18. After a successful [DYNARR_PUSH] of [v], [dynarrFindLinear] finds
    [v]: it returns an index at or before the one the push returned, whose
    element is [v], and exactly the pushed index when [v] was not in the
    container before. *)
Theorem push_then_find (realloc : Z -> bool) (a : dynarr) (v : list byte) :
  inv a -> fits a -> grow_ok a -> value_of a v -> 0 < capa a ->
  fst (DYNARR_PUSH realloc a v) <> -1 ->
  0 <= dynarrFindLinear (snd (DYNARR_PUSH realloc a v)) v <= size a /\
  elt (snd (DYNARR_PUSH realloc a v))
      (dynarrFindLinear (snd (DYNARR_PUSH realloc a v)) v) = v /\
  (~ In v (contents a) ->
   dynarrFindLinear (snd (DYNARR_PUSH realloc a v)) v = size a).
Proof.
  intros Hi Hf Hg Hv Hpos Hok. assert (Hi' := Hi). destruct Hi' as (Ho & Hs & Hc).
  destruct (push_result realloc a v Hi Hf Hg Hv Hpos) as
    [(Hr & Hi1 & Hf1 & He1 & Hs1 & Hc1) | (Hfail & _)].
  2:{ rewrite Hfail in Hok. cbn [fst] in Hok. contradiction. }
  set (a1 := snd (DYNARR_PUSH realloc a v)) in *.
  assert (Hlast : elt a1 (size a) = v).
  { rewrite elt_nth by lia. rewrite Hc1.
    rewrite app_nth2 by (rewrite contents_length; lia).
    rewrite contents_length, Nat.sub_diag. reflexivity. }
  assert (Hold : forall j, 0 <= j < size a ->
                           elt a1 j = nth (Z.to_nat j) (contents a) []).
  { intros j Hj. rewrite elt_nth by lia. rewrite Hc1.
    now rewrite app_nth1 by (rewrite contents_length; lia). }
  assert (Hmax : size a1 <= Int.INT_MAX).
  { assert (Hr1 : Int.in_range (size a1))
      by (apply (index_range a1); [assumption | unfold inv in Hi1; lia]).
    unfold Int.in_range in Hr1. lia. }
  assert (Hv1 : value_of a1 v) by (unfold value_of in *; congruence).
  unfold dynarrFindLinear.
  destruct (find_loop_spec a1 v (Z.to_nat (size a1)) 0 Hmax) as
    [(_ & Hall) | (Hr1 & Hat & Hmin)];
    try assumption; try lia; [destruct Hf1; lia | |].
  - exfalso. apply (Hall (size a)); [lia | assumption].
  - set (r := find_loop a1 v (Z.to_nat (size a1)) 0) in *.
    split; [lia|]. split; [assumption|].
    intros Hnew. destruct (Z.eq_dec r (size a)) as [E|E]; [assumption|].
    exfalso. apply Hnew. rewrite <- Hat, Hold by lia.
    apply nth_In. rewrite contents_length. lia.
Qed.

Lemma push_then_find_witness :
  dynarrFindLinear (snd (DYNARR_PUSH alloc_ok unsorted4 (word x09))) (word x09) = 4.
Proof.
  destruct (push_then_find alloc_ok unsorted4 (word x09)) as (_ & _ & H).
  - vm_compute; repeat split; intro; discriminate.
  - vm_compute; repeat split; intro; discriminate.
  - intros _ _; vm_compute; intro; discriminate.
  - vm_compute; reflexivity.
  - vm_compute; reflexivity.
  - vm_compute. intro; discriminate.
  - rewrite H; [vm_compute; reflexivity|].
    vm_compute. intros [H1 | [H1 | [H1 | [H1 | []]]]]; discriminate.
Defined.

(** ** dynarrFindBinary *)

Lemma to_size_t_small (z : Z) : 0 <= z <= Int.INT_MAX -> Int.to_size_t z = z.
Proof.
  intros Hz. unfold Int.to_size_t, Int.size_modulus. apply Z.mod_small.
  unfold Int.INT_MAX in Hz. lia.
Qed.

Lemma scan_search_sound (k : list byte) (m : mem) (sz : Z)
      (comp : list byte -> list byte -> Z) (n : nat) :
  forall p q,
    scan_search k m p n sz comp = Some q ->
    exists i, 0 <= i < Z.of_nat n /\ q = p + sz * i /\ comp k (load m q sz) = 0.
Proof.
  induction n as [|n IH]; intros p q H; [discriminate|].
  cbn [scan_search] in H. destruct (Z.eqb_spec (comp k (load m p sz)) 0) as [E|E].
  - injection H as <-. exists 0. split; [lia|]. split; [lia | assumption].
  - destruct (IH _ _ H) as (i & Hi & Hq & Hc).
    exists (i + 1). split; [lia|]. split; [lia | assumption].
Qed.

Lemma scan_bsearch_sound : bsearch_sound scan_bsearch.
Proof.
  intros k m base nmemb sz comp p H. unfold scan_bsearch in H.
  destruct (scan_search_sound k m sz comp _ _ _ H) as (i & Hi & Hq & Hc).
  exists i. split; [lia|]. split; assumption.
Qed.

(** X20. With a [bsearch] that keeps the C standard's promise,
    [dynarrFindBinary] returns -1 exactly when [bsearch] finds nothing, and
    otherwise a valid index: the index of the element whose address
    [bsearch] returned, which compares equal to the key. *)
Theorem dynarrFindBinary_index (bsearch : bsearch_fn) (a : dynarr)
        (comp : list byte -> list byte -> Z) (k : list byte) :
  bsearch_sound bsearch -> inv a -> fits a ->
  (bsearch k (data a) (DARR_EPTR a 0) (Int.to_size_t (size a))
           (Int.to_size_t (elem a)) comp = None /\
   dynarrFindBinary bsearch a comp k = -1) \/
  (0 <= dynarrFindBinary bsearch a comp k < size a /\
   comp k (elt a (dynarrFindBinary bsearch a comp k)) = 0 /\
   bsearch k (data a) (DARR_EPTR a 0) (Int.to_size_t (size a))
           (Int.to_size_t (elem a)) comp
   = Some (DARR_EPTR a (dynarrFindBinary bsearch a comp k))).
Proof.
  intros Hsound Hi Hf. assert (Hi' := Hi). destruct Hi' as (Ho & Hs & Hc).
  unfold dynarrFindBinary.
  destruct (bsearch _ _ _ _ _ _) as [p|] eqn:Hb; [right | left; split; reflexivity].
  destruct (Hsound _ _ _ _ _ _ _ Hb) as (i & Hr & Hp & Hcmp).
  assert (Hsz : Int.to_size_t (size a) = size a).
  { apply to_size_t_small.
    assert (H : Int.in_range (size a)) by (apply (index_range a); [assumption | lia]).
    unfold Int.in_range in H. lia. }
  rewrite Hsz in Hr.
  assert (Hel : Int.to_size_t (elem a) = elem a).
  { apply to_size_t_small.
    assert (H : Int.in_range (elem a * 1)) by (apply bytes_range; [assumption | lia]).
    unfold Int.in_range in H. destruct Hf. lia. }
  rewrite Hel in Hp, Hcmp.
  assert (Hpi : p = DARR_EPTR a i).
  { rewrite Hp, !EPTR_eq by (try assumption; lia). lia. }
  assert (Hq : Int.wrap (Z.quot (p - DARR_EPTR a 0) (elem a)) = i).
  { rewrite Hp. replace (DARR_EPTR a 0 + elem a * i - DARR_EPTR a 0) with (i * elem a) by lia.
    rewrite Z.quot_mul by (destruct Hf; lia).
    apply wrap_small. apply (index_range a); [assumption | lia]. }
  rewrite Hq. split; [lia|]. split; [|now rewrite Hpi].
  unfold elt. now rewrite <- Hpi.
Qed.

Lemma dynarrFindBinary_index_witness :
  dynarrFindBinary scan_bsearch (dynarrSortInsert unsorted4 by_first_byte)
                   by_first_byte (tagged x02 x00) = 2 /\
  dynarrFindBinary scan_bsearch (dynarrSortInsert unsorted4 by_first_byte)
                   by_first_byte (tagged x05 x00) = -1.
Proof.
  set (b := dynarrSortInsert unsorted4 by_first_byte).
  assert (Hi : inv b) by (vm_compute; repeat split; intro; discriminate).
  assert (Hf : fits b) by (vm_compute; repeat split; intro; discriminate).
  split.
  - destruct (dynarrFindBinary_index scan_bsearch b by_first_byte (tagged x02 x00)
                scan_bsearch_sound Hi Hf) as [(Hn & _) | (_ & _ & Hb)].
    + vm_compute in Hn. discriminate.
    + vm_compute. reflexivity.
  - destruct (dynarrFindBinary_index scan_bsearch b by_first_byte (tagged x05 x00)
                scan_bsearch_sound Hi Hf) as [(_ & Hr) | (_ & Hc & _)].
    + exact Hr.
    + vm_compute in Hc. discriminate.
Defined.

(** ** Reusing the slots in front *)

(** X21. When the offset is at least the size, [DYNARR_PUSH] never needs
    the allocator: it succeeds whatever the allocator would answer, and a
    buffer that was full up to its end is compacted to offset 0 instead of
    being reallocated, with its capacity unchanged. *)
Theorem push_reclaims_front (realloc : Z -> bool) (a : dynarr) (v : list byte) :
  inv a -> fits a -> value_of a v -> 0 < capa a -> size a <= offs a ->
  fst (DYNARR_PUSH realloc a v) = size a /\
  contents (snd (DYNARR_PUSH realloc a v)) = contents a ++ [v] /\
  capa (snd (DYNARR_PUSH realloc a v)) = capa a /\
  offs (snd (DYNARR_PUSH realloc a v)) =
    (if offs a + size a =? capa a then 0 else offs a).
Proof.
  intros Hi Hf Hv Hpos Hge. assert (Hi' := Hi). destruct Hi' as (Ho & Hs & Hc).
  assert (Hg : grow_ok a) by (intros _ Hlt; lia).
  destruct (push_result realloc a v Hi Hf Hg Hv Hpos) as
    [(Hr & _ & _ & _ & _ & Hl) | (_ & _ & Hlt & _)]; [|lia].
  split; [exact Hr|]. split; [exact Hl|].
  rewrite push_eq.
  destruct (Z.eqb_spec (offs a + size a) (capa a)) as [Hfull|Hroom].
  - rewrite (grow_compact_eq realloc a) by assumption.
    cbn [fst snd Z.eqb]. fields. split; reflexivity.
  - rewrite (grow_idle_eq realloc a) by (try assumption; lia).
    cbn [fst snd Z.eqb]. fields. split; reflexivity.
Qed.

Lemma push_reclaims_front_witness :
  fst (DYNARR_PUSH alloc_fail queue_tail (word x03)) = 1 /\
  contents (snd (DYNARR_PUSH alloc_fail queue_tail (word x03))) =
    [word x02; word x03] /\
  capa (snd (DYNARR_PUSH alloc_fail queue_tail (word x03))) = 2 /\
  offs (snd (DYNARR_PUSH alloc_fail queue_tail (word x03))) = 0.
Proof.
  destruct (push_reclaims_front alloc_fail queue_tail (word x03)) as (Hr & Hl & Hc & Ho).
  - vm_compute; repeat split; intro; discriminate.
  - vm_compute; repeat split; intro; discriminate.
  - vm_compute; reflexivity.
  - vm_compute; reflexivity.
  - vm_compute; intro; discriminate.
  - split; [rewrite Hr; vm_compute; reflexivity|].
    split; [rewrite Hl; vm_compute; reflexivity|].
    split; [rewrite Hc; vm_compute; reflexivity|].
    rewrite Ho. vm_compute. reflexivity.
Defined.
